(** * NFTMarket: the item ledger, its event log and the history reconstructor

    A shallow embedding of [contracts/NFTMarket.sol] (the ledger: create,
    purchase, relist, cancel, the active-listing view, the ownership query)
    and of [fetchItemHistories] in [pages/nft/[id].js] (the client-side merge
    of the four event streams), with the properties proved about them.

    Conventions.
    - [uint256] and [address] values are [N]; the one unchecked arithmetic
      operation of the contract ([Counters.increment]) has its wrap-around
      written out, checked arithmetic that overflows is a [Panic].
    - A Solidity mapping is a [gmap] read with the zero value as default.
    - A contract function is a function [World -> Result World]; a revert is
      [Err], and the transaction layer ([commit]) keeps the old world then.
    - The external calls of the model cannot call back into the market, so
      the [nonReentrant] guard never fires and is left out. *)

From Stdlib Require Import NArith ZArith Ascii String List Lia Sorted.
From stdpp Require Import base option list gmap.

Local Open Scope N_scope.

(** ** Values *)

Abbreviation address := N (only parsing).
Abbreviation uint256 := N (only parsing).
Definition max_uint256 : N := 2 ^ 256 - 1.

(** [address(0)], the "none" sentinel of the ledger. *)
Definition address0 : address := 0.

(** [1 ether], in wei. *)
Definition ether : N := 10 ^ 18.

(** ** Reverts

    Each [require] of the contract is one constructor; the comment gives the
    message of the source.  The last five are the failures of the execution
    environment and of the imported libraries. *)

Inductive Revert :=
| InvalidPrice      (* "Price must be at least 1 wei" / "Price must be > 0" *)
| FeeMismatch       (* "Price must be equal to listing price" / "Must pay listing fee" *)
| PriceMismatch     (* "Please submit the asking price in order to complete the purchase" *)
| NotOwner          (* "Only owner can relist" *)
| AlreadySold       (* "Can't cancel after sold" *)
| NotSeller         (* "Only seller can cancel" *)
| CounterUnderflow  (* Counters: "Counter: decrement overflow" *)
| CustodyRejected   (* the call to IERC721.transferFrom reverted *)
| PaymentFailed     (* address.transfer reverted *)
| Unfunded          (* msg.sender does not hold msg.value *)
| Panic.            (* checked arithmetic overflow, array index out of bounds *)

Inductive Result (A : Type) :=
| Ok (a : A)
| Err (e : Revert).

Arguments Ok {A} a.
Arguments Err {A} e.

Definition bind {A B} (r : Result A) (k : A -> Result B) : Result B :=
  match r with
  | Ok a => k a
  | Err e => Err e
  end.

Definition require (b : bool) (e : Revert) : Result unit :=
  if b then Ok tt else Err e.

Notation "'do' x <- e ; k" := (bind e (fun x => k))
  (at level 10, x name, e at level 100, k at level 200,
   format "'[v' 'do'  x  <-  e ; '/' k ']'").
Notation "'check' b 'else' e ; k" := (bind (require b e) (fun _ => k))
  (at level 10, b at level 100, e at level 100, k at level 200,
   format "'[v' 'check'  b  'else'  e ; '/' k ']'").

(** ** OpenZeppelin [Counters]

    [increment] is [unchecked { counter._value += 1; }]; [decrement] requires
    a positive value. *)

Module Counters.

Definition current (c : uint256) : uint256 := c.

Definition increment (c : uint256) : uint256 := (c + 1) mod 2 ^ 256.

Definition decrement (c : uint256) : Result uint256 :=
  check (0 <? c) else CounterUnderflow;
  Ok (c - 1).

End Counters.

(** ** The item record: [struct MarketItem] *)

Module MarketItem.

Record t := mk {
  itemId : uint256;
  nftContract : address;
  tokenId : uint256;
  seller : address;
  owner : address;
  price : uint256;
  dataHash : N;
  licenseType : string;
  encryptedDataUrl : string
}.

(** The value a mapping holds at a key that was never written. *)
Definition zero : t := mk 0 0 0 0 0 0 0 EmptyString EmptyString.

Definition set_owner (a : address) (it : t) : t :=
  mk (itemId it) (nftContract it) (tokenId it) (seller it) a (price it)
     (dataHash it) (licenseType it) (encryptedDataUrl it).

Definition set_seller (a : address) (it : t) : t :=
  mk (itemId it) (nftContract it) (tokenId it) a (owner it) (price it)
     (dataHash it) (licenseType it) (encryptedDataUrl it).

Definition set_price (p : uint256) (it : t) : t :=
  mk (itemId it) (nftContract it) (tokenId it) (seller it) (owner it) p
     (dataHash it) (licenseType it) (encryptedDataUrl it).

End MarketItem.

(** ** The event log: the four [event] declarations, with their arguments in
    the order of the source.  [MarketItemCreated] is declared without a
    timestamp argument. *)

Inductive Event :=
| MarketItemCreated (itemId : uint256) (nftContract : address) (tokenId : uint256)
    (seller owner : address) (price : uint256) (dataHash : N)
    (licenseType encryptedDataUrl : string)
| MarketItemSold (itemId : uint256) (nftContract : address) (tokenId : uint256)
    (seller buyer : address) (price : uint256) (timestamp : uint256)
| MarketItemRelisted (itemId : uint256) (nftContract : address) (tokenId : uint256)
    (seller : address) (price : uint256) (timestamp : uint256)
| MarketItemCanceled (itemId : uint256) (nftContract : address) (tokenId : uint256)
    (seller : address) (timestamp : uint256).

Inductive Kind := Created | Sold | Relisted | Canceled.

Definition event_kind (e : Event) : Kind :=
  match e with
  | MarketItemCreated _ _ _ _ _ _ _ _ _ => Created
  | MarketItemSold _ _ _ _ _ _ _ => Sold
  | MarketItemRelisted _ _ _ _ _ _ => Relisted
  | MarketItemCanceled _ _ _ _ _ => Canceled
  end.

Definition event_itemId (e : Event) : uint256 :=
  match e with
  | MarketItemCreated i _ _ _ _ _ _ _ _ => i
  | MarketItemSold i _ _ _ _ _ _ => i
  | MarketItemRelisted i _ _ _ _ _ => i
  | MarketItemCanceled i _ _ _ _ => i
  end.

(** The [timestamp] argument of an event, when its declaration has one. *)
Definition event_timestamp (e : Event) : option uint256 :=
  match e with
  | MarketItemCreated _ _ _ _ _ _ _ _ _ => None
  | MarketItemSold _ _ _ _ _ _ t => Some t
  | MarketItemRelisted _ _ _ _ _ t => Some t
  | MarketItemCanceled _ _ _ _ t => Some t
  end.

(** ** Contract storage: the state variables of [NFTMarket] *)

Record NFTMarket := mkMarket {
  _itemIds : uint256;
  _itemsSold : uint256;
  owner : address;
  listingPrice : uint256;
  idToMarketItem : gmap N MarketItem.t
}.

(** [idToMarketItem[i]]: a mapping read never fails. *)
Definition item_at (items : gmap N MarketItem.t) (i : uint256) : MarketItem.t :=
  default MarketItem.zero (items !! i).

(** [constructor()] with the state variable initialisers. *)
Definition constructor (deployer : address) : NFTMarket :=
  mkMarket 0 0 deployer (ether / 10) ∅.

(** ** The call context: [msg.sender] and [block.timestamp].  The value sent
    with a call to a [payable] function is an argument of its model. *)

Record Msg := mkMsg {
  msg_sender : address;
  block_timestamp : uint256
}.

(** ** Native balances *)

Definition balance_of (b : gmap N N) (a : address) : N := default 0 (b !! a).

Definition move (from to : address) (v : N) (b : gmap N N) : gmap N N :=
  let b1 := <[from := balance_of b from - v]> b in
  <[to := balance_of b1 to + v]> b1.

(** All the native currency the accounts hold. *)
Definition total_supply (b : gmap N N) : N :=
  map_fold (fun _ v acc => v + acc) 0 b.

(** ** The contract

    The collaborators of the ledger are parameters: the state of the asset
    contracts and what a call to [IERC721(c).transferFrom(from, to, id)] made
    by the market does to it ([None] when that call reverts), the address of
    the market itself, and which addresses accept a plain [transfer]. *)

Section Contract.

Variable Custody : Type.
Variable transferFrom :
  address -> address -> address -> address -> uint256 -> Custody -> option Custody.
Variable this : address.
Variable receives : address -> bool.

Record World := mkWorld {
  market : NFTMarket;
  balances : gmap N N;
  custody : Custody;
  logs : list Event
}.

Definition with_market (s : NFTMarket) (w : World) : World :=
  mkWorld s (balances w) (custody w) (logs w).

Definition with_balances (b : gmap N N) (w : World) : World :=
  mkWorld (market w) b (custody w) (logs w).

Definition with_custody (c : Custody) (w : World) : World :=
  mkWorld (market w) (balances w) c (logs w).

(** [emit e]: the log is append-only. *)
Definition emit (e : Event) (w : World) : World :=
  mkWorld (market w) (balances w) (custody w) (logs w ++ [e]).

Definition item (w : World) (i : uint256) : MarketItem.t :=
  item_at (idToMarketItem (market w)) i.

(** [idToMarketItem[i] = it] *)
Definition store_item (i : uint256) (it : MarketItem.t) (w : World) : World :=
  let s := market w in
  with_market
    (mkMarket (_itemIds s) (_itemsSold s) (owner s) (listingPrice s)
       (<[i := it]> (idToMarketItem s))) w.

Definition set_itemIds (n : uint256) (w : World) : World :=
  let s := market w in
  with_market
    (mkMarket n (_itemsSold s) (owner s) (listingPrice s) (idToMarketItem s)) w.

Definition set_itemsSold (n : uint256) (w : World) : World :=
  let s := market w in
  with_market
    (mkMarket (_itemIds s) n (owner s) (listingPrice s) (idToMarketItem s)) w.

(** Entry of a [payable] function: [msg.value] has moved from the caller to
    the contract. *)
Definition payable (m : Msg) (msg_value : uint256) (w : World) : Result World :=
  check (msg_value <=? balance_of (balances w) (msg_sender m)) else Unfunded;
  Ok (with_balances (move (msg_sender m) this msg_value (balances w)) w).

(** [to.transfer(v)] *)
Definition transfer (to : address) (v : uint256) (w : World) : Result World :=
  check (v <=? balance_of (balances w) this) && receives to else PaymentFailed;
  Ok (with_balances (move this to v (balances w)) w).

(** [IERC721(nftContract).transferFrom(from, to, tokenId)].  A call to an
    address without code reverts, and the zero address has none. *)
Definition IERC721_transferFrom (nftContract from to : address) (tokenId : uint256)
    (w : World) : Result World :=
  check negb (nftContract =? address0) else CustodyRejected;
  match transferFrom nftContract this from to tokenId (custody w) with
  | Some c => Ok (with_custody c w)
  | None => Err CustodyRejected
  end.

(** [function createMarketItem(...) public payable nonReentrant] *)
Definition createMarketItem (m : Msg) (msg_value : uint256)
    (nftContract : address) (tokenId price : uint256) (dataHash : N)
    (licenseType encryptedDataUrl : string) (w : World) : Result World :=
  do w <- payable m msg_value w;
  check (0 <? price) else InvalidPrice;
  check (msg_value =? listingPrice (market w)) else FeeMismatch;
  let w := set_itemIds (Counters.increment (_itemIds (market w))) w in
  let itemId := Counters.current (_itemIds (market w)) in
  let w :=
    store_item itemId
      (MarketItem.mk itemId nftContract tokenId (msg_sender m) address0 price
         dataHash licenseType encryptedDataUrl) w in
  do w <- IERC721_transferFrom nftContract (msg_sender m) this tokenId w;
  Ok (emit (MarketItemCreated itemId nftContract tokenId (msg_sender m) address0
              price dataHash licenseType encryptedDataUrl) w).

(** [function createMarketSale(address nftContract, uint256 itemId)
    public payable nonReentrant] *)
Definition createMarketSale (m : Msg) (msg_value : uint256)
    (nftContract : address) (itemId : uint256) (w : World) : Result World :=
  do w <- payable m msg_value w;
  let price := MarketItem.price (item w itemId) in
  let tokenId := MarketItem.tokenId (item w itemId) in
  check (msg_value =? price) else PriceMismatch;
  do w <- transfer (MarketItem.seller (item w itemId)) msg_value w;
  do w <- IERC721_transferFrom nftContract this (msg_sender m) tokenId w;
  let w := store_item itemId (MarketItem.set_owner (msg_sender m) (item w itemId)) w in
  let w := set_itemsSold (Counters.increment (_itemsSold (market w))) w in
  do w <- transfer (owner (market w)) (listingPrice (market w)) w;
  Ok (emit (MarketItemSold itemId nftContract tokenId
              (MarketItem.seller (item w itemId)) (msg_sender m) price
              (block_timestamp m)) w).

(** [function relistMarketItem(uint256 itemId, uint256 price)
    public payable nonReentrant]; [item] is a storage reference. *)
Definition relistMarketItem (m : Msg) (msg_value : uint256)
    (itemId price : uint256) (w : World) : Result World :=
  do w <- payable m msg_value w;
  check (MarketItem.owner (item w itemId) =? msg_sender m) else NotOwner;
  check (0 <? price) else InvalidPrice;
  check (msg_value =? listingPrice (market w)) else FeeMismatch;
  do w <- IERC721_transferFrom (MarketItem.nftContract (item w itemId))
            (msg_sender m) this (MarketItem.tokenId (item w itemId)) w;
  let w := store_item itemId (MarketItem.set_seller (msg_sender m) (item w itemId)) w in
  let w := store_item itemId (MarketItem.set_owner address0 (item w itemId)) w in
  let w := store_item itemId (MarketItem.set_price price (item w itemId)) w in
  do sold <- Counters.decrement (_itemsSold (market w));
  let w := set_itemsSold sold w in
  Ok (emit (MarketItemRelisted itemId (MarketItem.nftContract (item w itemId))
              (MarketItem.tokenId (item w itemId)) (msg_sender m) price
              (block_timestamp m)) w).

(** [function cancelListing(uint256 itemId) public nonReentrant] *)
Definition cancelListing (m : Msg) (itemId : uint256) (w : World) : Result World :=
  check (MarketItem.owner (item w itemId) =? address0) else AlreadySold;
  check (MarketItem.seller (item w itemId) =? msg_sender m) else NotSeller;
  do w <- IERC721_transferFrom (MarketItem.nftContract (item w itemId))
            this (msg_sender m) (MarketItem.tokenId (item w itemId)) w;
  let w := emit (MarketItemCanceled itemId (MarketItem.nftContract (item w itemId))
                   (MarketItem.tokenId (item w itemId)) (msg_sender m)
                   (block_timestamp m)) w in
  Ok (store_item itemId
        (MarketItem.set_owner (MarketItem.seller (item w itemId)) (item w itemId)) w).

(** [getMarketItem] and [verifyOwnership] *)
Definition getMarketItem (marketItemId : uint256) (w : World) : MarketItem.t :=
  item w marketItemId.

Definition verifyOwnership (itemId : uint256) (user : address) (w : World) : bool :=
  MarketItem.owner (item w itemId) =? user.

(** *** [fetchMarketItems]: count, allocate, fill *)

(** The condition of both loops:
    [currentItem.owner == address(0) && currentItem.itemId != 0]. *)
Definition unsold (it : MarketItem.t) : bool :=
  (MarketItem.owner it =? address0) && negb (MarketItem.itemId it =? 0).

(** The values of [i] in [for (uint i = 1; i <= itemCount; i++)].  The
    increment is checked: with [itemCount] at the top of the range the last
    [i++] overflows. *)
Definition for_range (itemCount : uint256) : Result (list uint256) :=
  check negb (itemCount =? max_uint256) else Panic;
  Ok (map N.of_nat (seq 1 (N.to_nat itemCount))).

(** First loop.  [unsoldCount] never exceeds [i - 1], so [unsoldCount++]
    cannot overflow. *)
Fixpoint count_unsold (w : World) (ids : list uint256) (unsoldCount : uint256)
    : uint256 :=
  match ids with
  | [] => unsoldCount
  | i :: rest =>
      let currentItem := item w i in
      if unsold currentItem then count_unsold w rest (unsoldCount + 1)
      else count_unsold w rest unsoldCount
  end.

(** Second loop.  [items[currentIndex] = currentItem] is bounds-checked. *)
Fixpoint fill_unsold (w : World) (ids : list uint256) (items : list MarketItem.t)
    (currentIndex : uint256) : Result (list MarketItem.t) :=
  match ids with
  | [] => Ok items
  | i :: rest =>
      let currentItem := item w i in
      if unsold currentItem then
        check (currentIndex <? N.of_nat (length items)) else Panic;
        fill_unsold w rest (<[N.to_nat currentIndex := currentItem]> items)
          (currentIndex + 1)
      else fill_unsold w rest items currentIndex
  end.

(** The count of the first pass, as [fetchMarketItems] computes it. *)
Definition unsoldCount (w : World) : Result uint256 :=
  do ids <- for_range (Counters.current (_itemIds (market w)));
  Ok (count_unsold w ids 0).

(** [function fetchMarketItems() public view returns (MarketItem[] memory)] *)
Definition fetchMarketItems (w : World) : Result (list MarketItem.t) :=
  let itemCount := Counters.current (_itemIds (market w)) in
  do ids <- for_range itemCount;
  let unsoldCount := count_unsold w ids 0 in
  let items := replicate (N.to_nat unsoldCount) MarketItem.zero in
  fill_unsold w ids items 0.

(** *** [fetchMyNFTs]: count, allocate, fill *)

(** The values of [i] in [for (uint i = 0; i < totalItemCount; i++)].  Here
    [i] stops at [totalItemCount] and [i + 1] never exceeds it: neither
    overflows. *)
Definition for_below (totalItemCount : uint256) : list uint256 :=
  map N.of_nat (seq 0 (N.to_nat totalItemCount)).

(** First loop: [if (idToMarketItem[i + 1].owner == msg.sender) itemCount += 1]. *)
Fixpoint count_owned (w : World) (sender : address) (indices : list uint256)
    (itemCount : uint256) : uint256 :=
  match indices with
  | [] => itemCount
  | i :: rest =>
      if MarketItem.owner (item w (i + 1)) =? sender
      then count_owned w sender rest (itemCount + 1)
      else count_owned w sender rest itemCount
  end.

(** Second loop: the record copied is the one at the [itemId] field of the
    record found at [i + 1]. *)
Fixpoint fill_owned (w : World) (sender : address) (indices : list uint256)
    (items : list MarketItem.t) (currentIndex : uint256)
    : Result (list MarketItem.t) :=
  match indices with
  | [] => Ok items
  | i :: rest =>
      if MarketItem.owner (item w (i + 1)) =? sender then
        let currentId := MarketItem.itemId (item w (i + 1)) in
        let currentItem := item w currentId in
        check (currentIndex <? N.of_nat (length items)) else Panic;
        fill_owned w sender rest (<[N.to_nat currentIndex := currentItem]> items)
          (currentIndex + 1)
      else fill_owned w sender rest items currentIndex
  end.

(** [function fetchMyNFTs() public view returns (MarketItem[] memory)] *)
Definition fetchMyNFTs (m : Msg) (w : World) : Result (list MarketItem.t) :=
  let totalItemCount := Counters.current (_itemIds (market w)) in
  let itemCount := count_owned w (msg_sender m) (for_below totalItemCount) 0 in
  let items := replicate (N.to_nat itemCount) MarketItem.zero in
  fill_owned w (msg_sender m) (for_below totalItemCount) items 0.

(** [function getDataInfo(uint256 itemId)] and [function getListingPrice()] *)
Definition getDataInfo (itemId : uint256) (w : World) : N * string * string :=
  let it := item w itemId in
  (MarketItem.dataHash it, MarketItem.licenseType it,
   MarketItem.encryptedDataUrl it).

Definition getListingPrice (w : World) : uint256 := listingPrice (market w).

(** *** Transactions

    A transaction is a call of one of the four state-changing functions.  It
    commits the world the function returns, or reverts to the world it
    started from. *)

Inductive Call :=
| CreateMarketItem (msg_value : uint256) (nftContract : address)
    (tokenId price : uint256) (dataHash : N) (licenseType encryptedDataUrl : string)
| CreateMarketSale (msg_value : uint256) (nftContract : address) (itemId : uint256)
| RelistMarketItem (msg_value : uint256) (itemId price : uint256)
| CancelListing (itemId : uint256).

Definition execute (m : Msg) (c : Call) (w : World) : Result World :=
  match c with
  | CreateMarketItem v nft tok p h lic url => createMarketItem m v nft tok p h lic url w
  | CreateMarketSale v nft i => createMarketSale m v nft i w
  | RelistMarketItem v i p => relistMarketItem m v i p w
  | CancelListing i => cancelListing m i w
  end.

Definition commit (m : Msg) (c : Call) (w : World) : World :=
  match execute m c w with
  | Ok w' => w'
  | Err _ => w
  end.

(** The world right after deployment: the empty ledger. *)
Definition genesis (deployer : address) (b : gmap N N) (c : Custody) : World :=
  mkWorld (constructor deployer) b c [].

Inductive reachable : World -> Prop :=
| reachable_genesis deployer b c : reachable (genesis deployer b c)
| reachable_commit m c w : reachable w -> reachable (commit m c w).

(** Running a list of transactions, first to last. *)
Definition run (txs : list (Msg * Call)) (w : World) : World :=
  fold_left (fun w tx => commit (fst tx) (snd tx) w) txs w.

End Contract.

Arguments market {Custody} w.
Arguments balances {Custody} w.
Arguments custody {Custody} w.
Arguments logs {Custody} w.
Arguments item {Custody} w i.

(** The kind of event a call appends when it is accepted. *)
Definition call_kind (c : Call) : Kind :=
  match c with
  | CreateMarketItem _ _ _ _ _ _ _ => Created
  | CreateMarketSale _ _ _ => Sold
  | RelistMarketItem _ _ _ => Relisted
  | CancelListing _ => Canceled
  end.

(** The item identifiers of the events of one kind, in the order of the log. *)
Definition Kind_eqb (a b : Kind) : bool :=
  match a, b with
  | Created, Created | Sold, Sold | Relisted, Relisted | Canceled, Canceled => true
  | _, _ => false
  end.

Definition ids_of (k : Kind) (log : list Event) : list uint256 :=
  map event_itemId (List.filter (fun e => Kind_eqb (event_kind e) k) log).

(** The item identifiers issued so far: those of the [MarketItemCreated]
    events. *)
Definition issued (log : list Event) : list uint256 := ids_of Created log.

(** ** The ledger invariant

    The identifiers issued are the successive values of the counter; an item
    that was created carries its identifier, a positive price and the asset
    contract it was listed with; at an identifier that was not issued the
    mapping still holds the zero record, but for the owner a purchase may
    have written. *)

Section Invariant.

Variable Custody : Type.

Definition numbered (w : World Custody) : Prop :=
  exists n : nat,
    issued (logs w) = map (fun k => N.of_nat k mod 2 ^ 256) (seq 1 n) /\
    _itemIds (market w) = N.of_nat n mod 2 ^ 256.

Record ledger_inv (w : World Custody) : Prop := mk_ledger_inv {
  inv_numbered : numbered w;
  inv_issued : forall i, i ∈ issued (logs w) ->
    MarketItem.itemId (item w i) = i /\
    0 < MarketItem.price (item w i) /\
    MarketItem.nftContract (item w i) <> address0;
  inv_unissued : forall i, i ∉ issued (logs w) ->
    MarketItem.itemId (item w i) = 0 /\
    MarketItem.nftContract (item w i) = address0 /\
    MarketItem.price (item w i) = 0 /\
    MarketItem.seller (item w i) = address0 /\
    (i ∉ ids_of Sold (logs w) -> MarketItem.owner (item w i) = address0);
  inv_fee : listingPrice (market w) = ether / 10
}.

(** The items the views enumerate: the identifiers from 1 to the counter. *)
Definition stored (w : World Custody) (i : uint256) : Prop :=
  1 <= i <= _itemIds (market w).

End Invariant.

Arguments numbered {Custody} w.
Arguments ledger_inv {Custody} w.
Arguments stored {Custody} w i.

(** ** The history reconstructor: [fetchItemHistories] in [pages/nft/[id].js] *)

(** One element of the [events] array.  [seller] is set on SOLD entries only,
    [price] on all but CANCELED ones; [timestamp] is a number or [null]. *)
Module HistoryEntry.

Record t := mk {
  type : string;
  itemId : string;
  tokenId : string;
  actor : address;
  seller : option address;
  price : option string;
  timestamp : option N
}.

End HistoryEntry.

(** [BigNumber.toNumber()] throws outside the safe integer range. *)
Definition toNumber (n : N) : option N :=
  if n <=? 2 ^ 53 - 1 then Some n else None.

(** [marketContract.queryFilter(marketContract.filters.<Kind>(idBN))]: the
    events of one kind whose indexed [itemId] is [idBN], in log order. *)
Definition queryFilter (k : Kind) (idBN : uint256) (log : list Event) : list Event :=
  List.filter (fun e => Kind_eqb (event_kind e) k && (event_itemId e =? idBN)) log.

(** The comparator [(a, b) => a.timestamp - b.timestamp]: [null] converts to
    the number 0. *)
Definition null_to_number (t : option N) : Z :=
  match t with
  | Some n => Z.of_N n
  | None => 0%Z
  end.

Definition by_timestamp (a b : HistoryEntry.t) : Z :=
  (null_to_number (HistoryEntry.timestamp a) - null_to_number (HistoryEntry.timestamp b))%Z.

(** [Array.prototype.sort(cmp)] is stable: an element moves in front of the
    ones it compares lower than, and of no other. *)
Fixpoint sort_insert {A} (cmp : A -> A -> Z) (x : A) (l : list A) : list A :=
  match l with
  | [] => [x]
  | y :: l' => if (cmp x y <=? 0)%Z then x :: y :: l' else y :: sort_insert cmp x l'
  end.

Fixpoint array_sort {A} (cmp : A -> A -> Z) (l : list A) : list A :=
  match l with
  | [] => []
  | x :: l' => sort_insert cmp x (array_sort cmp l')
  end.

Fixpoint for_each {A B} (f : A -> option B) (l : list A) : option (list B) :=
  match l with
  | [] => Some []
  | x :: l' =>
      match f x with
      | Some y =>
          match for_each f l' with
          | Some ys => Some (y :: ys)
          | None => None
          end
      | None => None
      end
  end.

Section History.

(** [BigNumber.toString()] and [ethers.utils.formatEther]. *)
Variable toString : N -> string.
Variable formatEther : N -> string.

(** The object pushed for an event [e]; which of the four [forEach] bodies
    applies is decided by the query the event came from, that is by its kind.
    [e.args.timestamp ? e.args.timestamp.toNumber() : null]: the arguments of
    a [MarketItemCreated] event have no [timestamp], which gives [null]. *)
Definition entry (e : Event) : option HistoryEntry.t :=
  match e with
  | MarketItemCreated i _ tok s _ p _ _ _ =>
      Some (HistoryEntry.mk "LISTED" (toString i) (toString tok) s None
              (Some (formatEther p)) None)
  | MarketItemSold i _ tok s b p t =>
      match toNumber t with
      | Some n =>
          Some (HistoryEntry.mk "SOLD" (toString i) (toString tok) b (Some s)
                  (Some (formatEther p)) (Some n))
      | None => None
      end
  | MarketItemRelisted i _ tok s p t =>
      match toNumber t with
      | Some n =>
          Some (HistoryEntry.mk "RELISTED" (toString i) (toString tok) s None
                  (Some (formatEther p)) (Some n))
      | None => None
      end
  | MarketItemCanceled i _ tok s t =>
      match toNumber t with
      | Some n =>
          Some (HistoryEntry.mk "CANCELED" (toString i) (toString tok) s None
                  None (Some n))
      | None => None
      end
  end.

(** [async function fetchItemHistories(marketContract, itemId)]; [None] when
    it throws. *)
Definition fetchItemHistories (log : list Event) (itemId : uint256)
    : option (list HistoryEntry.t) :=
  let created := queryFilter Created itemId log in
  let sold := queryFilter Sold itemId log in
  let relisted := queryFilter Relisted itemId log in
  let canceled := queryFilter Canceled itemId log in
  match for_each entry (created ++ sold ++ relisted ++ canceled) with
  | Some events => Some (array_sort by_timestamp events)
  | None => None
  end.

End History.

(** ** Client-side helpers *)

(** *** [convert_src] in [utils/utils.js] *)

Fixpoint string_drop (n : nat) (s : string) : string :=
  match n, s with
  | O, _ => s
  | S _, EmptyString => EmptyString
  | S n', String _ s' => string_drop n' s'
  end.

(** [s.replace(pattern, replacement)] with a string pattern: the first
    occurrence is replaced, if there is one. *)
Fixpoint replace_first (pattern replacement s : string) : string :=
  if String.prefix pattern s
  then (replacement ++ string_drop (String.length pattern) s)%string
  else match s with
       | EmptyString => EmptyString
       | String c s' => String c (replace_first pattern replacement s')
       end.

Definition gateway : string :=
  "https://green-delicate-badger-965.mypinata.cloud/ipfs/".

(** [None] is [null] or [undefined]; [!ipfs] also holds of the empty
    string. *)
Definition convert_src (ipfs : option string) : option string :=
  match ipfs with
  | None => None
  | Some EmptyString => None
  | Some s =>
      if String.prefix "ipfs://" s
      then Some (replace_first "ipfs://" gateway s)
      else Some s
  end.

(** *** [extractCidFromUrl] in the search page *)

Definition is_alnum (c : ascii) : bool :=
  let n := N_of_ascii c in
  ((48 <=? n) && (n <=? 57)) || ((65 <=? n) && (n <=? 90))
  || ((97 <=? n) && (n <=? 122)).

(** The longest run of [[a-zA-Z0-9]] at the head of a string. *)
Fixpoint take_alnum (s : string) : string :=
  match s with
  | EmptyString => EmptyString
  | String c s' => if is_alnum c then String c (take_alnum s') else EmptyString
  end.

(** [url.match(/ipfs\/([a-zA-Z0-9]+)/)]: the capture of the leftmost match,
    the group being greedy. *)
Fixpoint match_ipfs (s : string) : option string :=
  match s with
  | EmptyString => None
  | String c s' =>
      if String.prefix "ipfs/" (String c s') then
        match take_alnum (string_drop 5 (String c s')) with
        | EmptyString => match_ipfs s'
        | cid => Some cid
        end
      else match_ipfs s'
  end.

Definition extractCidFromUrl (url : option string) : option string :=
  match url with
  | None => None
  | Some EmptyString => None
  | Some s => match_ipfs s
  end.

(** *** The [bytes32] argument built in [createSale] *)

Fixpoint string_repeat (c : ascii) (n : nat) : string :=
  match n with
  | O => EmptyString
  | S n' => String c (string_repeat c n')
  end.

(** [s.padStart(n, c)] for a one-character filler. *)
Definition padStart (n : nat) (c : ascii) (s : string) : string :=
  (string_repeat c (n - String.length s) ++ s)%string.

(** [dataHash] is a string of the form state, the empty string at first. *)
Definition dataHashBytes32 (dataHash : string) : string :=
  match dataHash with
  | EmptyString => ("0x" ++ string_repeat "0" 64)%string
  | _ =>
      let cleanHash :=
        if String.prefix "0x" dataHash then string_drop 2 dataHash else dataHash in
      ("0x" ++ padStart 64 "0" cleanHash)%string
  end.

(** *** Removal of the padding in [downloadData] (step 5)

    [decryptedArray[decryptedArray.length - 1]] is [undefined] on an empty
    array, and the end of the slice is then [NaN], which [slice] reads as 0;
    a negative end counts from the end of the array. *)
Definition removePadding (decryptedArray : list N) : list N :=
  match last decryptedArray with
  | None => []
  | Some paddingLength =>
      let len := Z.of_nat (length decryptedArray) in
      let stop := (len - Z.of_N paddingLength)%Z in
      let final := if (stop <? 0)%Z then Z.max (len + stop) 0 else Z.min stop len in
      take (Z.to_nat final) decryptedArray
  end.

(** *** The upload endpoint: [handler] in [pages/api/files.js]

    The parameters are what the endpoint calls: the parse of the form (its
    error, or the [files] object as the list of its entries in the order of
    [Object.values]), reading the file and uploading it (the content
    identifier, or the message of the error thrown), and the name of the
    gateway. *)

Inductive FileValue (F : Type) :=
| OneFile (f : F)
| FileArray (l : list F).

Arguments OneFile {F} f.
Arguments FileArray {F} l.

Inductive Parse (F : Type) :=
| ParseError (message : string)
| Parsed (files : list (string * FileValue F)).

Arguments ParseError {F} message.
Arguments Parsed {F} files.

(** The JSON body of the response. *)
Inductive Body :=
| ErrorBody (error : string)
| UploadBody (cid url : string).

Section Upload.

Variable F : Type.
Variable upload : F -> string + string.
Variable PINATA_GATEWAY_URL : string.

(** [if (Array.isArray(uploadedFile)) uploadedFile = uploadedFile[0]] *)
Definition first_file (v : FileValue F) : option F :=
  match v with
  | OneFile f => Some f
  | FileArray l => head l
  end.

(** [files.file] *)
Definition files_file (files : list (string * FileValue F)) : option (FileValue F) :=
  match List.find (fun kv => String.eqb (fst kv) "file") files with
  | Some kv => Some (snd kv)
  | None => None
  end.

(** The file the endpoint uploads, if it finds one. *)
Definition uploadedFile (files : list (string * FileValue F)) : option F :=
  let uploadedFile :=
    match files_file files with
    | Some v => first_file v
    | None => None
    end in
  match uploadedFile with
  | Some f => Some f
  | None =>
      match files with
      | [] => None
      | (_, v) :: _ => first_file v
      end
  end.

(** The status and the body the endpoint answers with. *)
Definition handler (method : string) (parse : Parse F) : N * Body :=
  if negb (String.eqb method "POST") then (405, ErrorBody "Method not allowed")
  else
    match parse with
    | ParseError message => (500, ErrorBody message)
    | Parsed files =>
        match uploadedFile files with
        | None => (400, ErrorBody "No file uploaded")
        | Some f =>
            match upload f with
            | inl cid =>
                (200, UploadBody cid
                        ("https://" ++ PINATA_GATEWAY_URL ++ "/ipfs/" ++ cid)%string)
            | inr message => (500, ErrorBody message)
            end
        end
    end.

End Upload.

Arguments first_file {F} v.
Arguments files_file {F} files.
Arguments uploadedFile {F} files.
Arguments handler {F} upload PINATA_GATEWAY_URL method parse.

(** ** A standard asset contract, to run the ledger on concrete worlds *)

Module ERC721.

(** Modelled from the spec: the asset custody collaborator (the token contract
    is not among the sources).  The state gives the holder of each asset
    [(assetContract, assetId)]; a transfer of custody from [from] to [to],
    requested by the market as approved operator, goes through exactly when
    [from] holds the asset. *)
Definition transferFrom (c operator from to : address) (id : uint256)
    (s : gmap (N * N) N) : option (gmap (N * N) N) :=
  match s !! (c, id) with
  | Some holder => if holder =? from then Some (<[(c, id) := to]> s) else None
  | None => None
  end.

Definition holder (s : gmap (N * N) N) (c : address) (id : uint256) : option address :=
  s !! (c, id).

End ERC721.

(** ** Concrete worlds

    A market at address 100 deployed by the operator 1, over standard asset
    contracts, every account accepting payments. *)

Module Scenario.

Definition this : address := 100.
Definition operator : address := 1.
Definition fee : uint256 := ether / 10.
Definition accepts (_ : address) : bool := true.

Definition exec := execute _ ERC721.transferFrom this accepts.
Definition step := commit _ ERC721.transferFrom this accepts.

(** Accounts 2, 3 and 4 hold one ether each; account 2 holds asset 7 of the
    asset contract 50. *)
Definition purses : gmap N N := <[2 := ether]> (<[3 := ether]> (<[4 := ether]> ∅)).

Definition w0 : World (gmap (N * N) N) :=
  genesis _ operator purses (<[(50, 7) := 2]> ∅).

(** Create, purchase, relist, cancel: the life of item 1. *)
Definition w1 := step (mkMsg 2 1000) (CreateMarketItem fee 50 7 10 0 "personal" "") w0.
Definition w2 := step (mkMsg 3 1001) (CreateMarketSale 10 50 1) w1.
Definition w3 := step (mkMsg 3 1002) (RelistMarketItem fee 1 15) w2.
Definition w4 := step (mkMsg 3 1003) (CancelListing 1) w3.

(** Account 2 lists asset 0 of the asset contract 50. *)
Definition z0 : World (gmap (N * N) N) :=
  genesis _ operator purses (<[(50, 0) := 2]> ∅).
Definition z1 := step (mkMsg 2 1000) (CreateMarketItem fee 50 0 10 0 "personal" "") z0.

(** Two asset contracts, 50 and 60, each with an asset 7: account 2 lists the
    first for 10 (item 1), account 3 lists the second for 1000 (item 2), and
    account 4 buys item 1 naming the asset contract 60. *)
Definition s0 : World (gmap (N * N) N) :=
  genesis _ operator purses (<[(50, 7) := 2]> (<[(60, 7) := 3]> ∅)).
Definition s1 := step (mkMsg 2 1000) (CreateMarketItem fee 50 7 10 0 "personal" "") s0.
Definition s2 := step (mkMsg 3 1001) (CreateMarketItem fee 60 7 1000 0 "research" "") s1.
Definition s3 := step (mkMsg 4 1002) (CreateMarketSale 10 60 1) s2.

(** The same life as a list of transactions. *)
Definition life : list (Msg * Call) :=
  [ (mkMsg 2 1000, CreateMarketItem fee 50 7 10 0 "personal" "");
    (mkMsg 3 1001, CreateMarketSale 10 50 1);
    (mkMsg 3 1002, RelistMarketItem fee 1 15);
    (mkMsg 3 1003, CancelListing 1) ].

(** Decimal rendering is not needed to run the reconstructor on examples. *)
Definition render (_ : N) : string := "".

End Scenario.

(** * Properties *)

(** ** The result monad *)

Lemma bind_Ok {A B} (r : Result A) (k : A -> Result B) (b : B) :
  bind r k = Ok b -> exists a, r = Ok a /\ k a = Ok b.
Proof. destruct r as [a|e]; simpl; [eauto | discriminate]. Qed.

Lemma require_Ok (b : bool) (e : Revert) (u : unit) : require b e = Ok u -> b = true.
Proof. destruct b; [reflexivity | discriminate]. Qed.

Lemma check_Ok {B} (b : bool) (e : Revert) (k : unit -> Result B) (r : B) :
  bind (require b e) k = Ok r -> b = true /\ k tt = Ok r.
Proof. destruct b; simpl; [auto | discriminate]. Qed.

(** Peel the binds of a successful run, outermost first. *)
Ltac peel H :=
  repeat match type of H with
  | bind (require _ _) _ = Ok _ =>
      let C := fresh "C" in apply check_Ok in H as [C H]
  | bind _ _ = Ok _ =>
      let a := fresh "w" in let E := fresh "E" in
      apply bind_Ok in H as (a & E & H)
  end.

(** ** Mappings and balances *)

Lemma item_at_insert (items : gmap N MarketItem.t) (i j : N) (it : MarketItem.t) :
  item_at (<[i := it]> items) j = if decide (i = j) then it else item_at items j.
Proof.
  unfold item_at. rewrite lookup_insert. repeat case_decide; simpl; congruence.
Qed.

Lemma balance_of_insert (b : gmap N N) (a c : address) (v : N) :
  balance_of (<[a := v]> b) c = if decide (a = c) then v else balance_of b c.
Proof.
  unfold balance_of. rewrite lookup_insert. repeat case_decide; simpl; congruence.
Qed.

Lemma balance_of_move (b : gmap N N) (from to a : address) (v : N) :
  v <= balance_of b from ->
  balance_of (move from to v b) a =
    balance_of b a + (if decide (to = a) then v else 0)
                   - (if decide (from = a) then v else 0).
Proof.
  intros Hv. unfold move. rewrite !balance_of_insert.
  repeat case_decide; subst; try congruence; lia.
Qed.

Arguments Counters.increment : simpl never.

(** ** The steps of a call *)

Section Properties.

Variable Custody : Type.
Variable transferFrom :
  address -> address -> address -> address -> uint256 -> Custody -> option Custody.
Variable this : address.
Variable receives : address -> bool.

Local Abbreviation World := (World Custody).
Local Abbreviation payable := (payable Custody this).
Local Abbreviation transfer := (transfer Custody this receives).
Local Abbreviation IERC721_transferFrom := (IERC721_transferFrom Custody transferFrom this).
Local Abbreviation createMarketItem := (createMarketItem Custody transferFrom this).
Local Abbreviation createMarketSale := (createMarketSale Custody transferFrom this receives).
Local Abbreviation relistMarketItem := (relistMarketItem Custody transferFrom this).
Local Abbreviation cancelListing := (cancelListing Custody transferFrom this).
Local Abbreviation execute := (execute Custody transferFrom this receives).
Local Abbreviation commit := (commit Custody transferFrom this receives).
Local Abbreviation reachable := (reachable Custody transferFrom this receives).
Local Abbreviation run := (run Custody transferFrom this receives).
Local Abbreviation fetchMarketItems := (fetchMarketItems Custody).
Local Abbreviation unsoldCount := (unsoldCount Custody).
Local Abbreviation verifyOwnership := (verifyOwnership Custody).

Lemma payable_Ok (m : Msg) (v : uint256) (w w1 : World) :
  payable m v w = Ok w1 ->
  v <= balance_of (balances w) (msg_sender m) /\
  w1 = with_balances Custody (move (msg_sender m) this v (balances w)) w.
Proof.
  unfold payable. intros H. peel H. apply N.leb_le in C.
  injection H as <-. auto.
Qed.

Lemma transfer_Ok (to : address) (v : uint256) (w w1 : World) :
  transfer to v w = Ok w1 ->
  v <= balance_of (balances w) this /\ receives to = true /\
  w1 = with_balances Custody (move this to v (balances w)) w.
Proof.
  unfold transfer. intros H. peel H. apply andb_prop in C as [C1 C2].
  apply N.leb_le in C1. injection H as <-. auto.
Qed.

Lemma IERC721_transferFrom_Ok (nft from to : address) (tok : uint256) (w w1 : World) :
  IERC721_transferFrom nft from to tok w = Ok w1 ->
  nft <> address0 /\
  exists c, transferFrom nft this from to tok (custody w) = Some c /\
            w1 = with_custody Custody c w.
Proof.
  unfold IERC721_transferFrom. intros H. peel H.
  apply negb_true_iff, N.eqb_neq in C. split; [exact C |].
  destruct (transferFrom nft this from to tok (custody w)) as [c|]; [| discriminate].
  injection H as <-. eauto.
Qed.


(** ** What a successful call has checked and done *)

Lemma createMarketItem_Ok m v nft tok p h lic url (w w' : World) :
  createMarketItem m v nft tok p h lic url w = Ok w' ->
  let j := Counters.increment (_itemIds (market w)) in
  0 < p /\ v = listingPrice (market w) /\ nft <> address0 /\
  market w' =
    mkMarket j (_itemsSold (market w)) (owner (market w)) (listingPrice (market w))
      (<[j := MarketItem.mk j nft tok (msg_sender m) address0 p h lic url]>
         (idToMarketItem (market w))) /\
  logs w' = logs w ++ [MarketItemCreated j nft tok (msg_sender m) address0 p h lic url].
Proof.
  unfold createMarketItem. intros H. peel H.
  apply payable_Ok in E as [_ ->]. simpl in *.
  apply IERC721_transferFrom_Ok in E0 as (Hnft & c & _ & ->).
  injection H as <-. simpl.
  apply N.ltb_lt in C. apply N.eqb_eq in C0. auto.
Qed.

Lemma createMarketSale_Ok m v nft i (w w' : World) :
  createMarketSale m v nft i w = Ok w' ->
  let it := item w i in
  v = MarketItem.price it /\
  v <= balance_of (balances w) (msg_sender m) /\
  nft <> address0 /\
  transferFrom nft this this (msg_sender m) (MarketItem.tokenId it) (custody w)
    = Some (custody w') /\
  market w' =
    mkMarket (_itemIds (market w)) (Counters.increment (_itemsSold (market w)))
      (owner (market w)) (listingPrice (market w))
      (<[i := MarketItem.set_owner (msg_sender m) it]> (idToMarketItem (market w))) /\
  balances w' =
    move this (owner (market w)) (listingPrice (market w))
      (move this (MarketItem.seller it) v
         (move (msg_sender m) this v (balances w))) /\
  listingPrice (market w) <=
    balance_of (move this (MarketItem.seller it) v
                  (move (msg_sender m) this v (balances w))) this /\
  logs w' =
    logs w ++ [MarketItemSold i nft (MarketItem.tokenId it) (MarketItem.seller it)
                 (msg_sender m) (MarketItem.price it) (block_timestamp m)].
Proof.
  unfold createMarketSale. intros H. peel H.
  apply payable_Ok in E as [Hv ->]. simpl in *.
  apply transfer_Ok in E0 as (_ & _ & ->). simpl in *.
  apply IERC721_transferFrom_Ok in E1 as (Hnft & c & Hc & ->). simpl in *.
  apply transfer_Ok in E2 as (Hfee & _ & ->). simpl in *.
  injection H as <-. simpl.
  apply N.eqb_eq in C. unfold item in *. simpl in *.
  rewrite item_at_insert. rewrite decide_True by reflexivity. simpl.
  auto 10.
Qed.

Lemma relistMarketItem_Ok m v i p (w w' : World) :
  relistMarketItem m v i p w = Ok w' ->
  let it := item w i in
  MarketItem.owner it = msg_sender m /\ 0 < p /\ v = listingPrice (market w) /\
  MarketItem.nftContract it <> address0 /\ 0 < _itemsSold (market w) /\
  market w' =
    mkMarket (_itemIds (market w)) (_itemsSold (market w) - 1)
      (owner (market w)) (listingPrice (market w))
      (<[i := MarketItem.set_price p
                (MarketItem.set_owner address0
                   (MarketItem.set_seller (msg_sender m) it))]>
         (idToMarketItem (market w))) /\
  logs w' =
    logs w ++ [MarketItemRelisted i (MarketItem.nftContract it) (MarketItem.tokenId it)
                 (msg_sender m) p (block_timestamp m)].
Proof.
  unfold relistMarketItem. intros H. peel H.
  apply payable_Ok in E as [_ ->]. simpl in *.
  apply IERC721_transferFrom_Ok in E0 as (Hnft & c & _ & ->). simpl in *.
  unfold Counters.decrement in E1. peel E1. injection E1 as <-.
  injection H as <-. simpl.
  apply N.eqb_eq in C. apply N.ltb_lt in C0, C2. apply N.eqb_eq in C1.
  unfold item in *. simpl in *.
  rewrite !item_at_insert, !decide_True by reflexivity.
  rewrite !insert_insert_eq. simpl. auto 10.
Qed.

Lemma cancelListing_Ok m i (w w' : World) :
  cancelListing m i w = Ok w' ->
  let it := item w i in
  MarketItem.owner it = address0 /\ MarketItem.seller it = msg_sender m /\
  MarketItem.nftContract it <> address0 /\
  market w' =
    mkMarket (_itemIds (market w)) (_itemsSold (market w))
      (owner (market w)) (listingPrice (market w))
      (<[i := MarketItem.set_owner (msg_sender m) it]> (idToMarketItem (market w))) /\
  balances w' = balances w /\
  logs w' =
    logs w ++ [MarketItemCanceled i (MarketItem.nftContract it) (MarketItem.tokenId it)
                 (msg_sender m) (block_timestamp m)].
Proof.
  unfold cancelListing. intros H. peel H.
  apply IERC721_transferFrom_Ok in E as (Hnft & c & _ & ->). simpl in *.
  injection H as <-. simpl.
  apply N.eqb_eq in C, C0. unfold item in *. simpl in *.
  rewrite C0. auto 10.
Qed.

(** ** The invariant holds in every reachable world *)

Lemma ids_of_app (k : Kind) (l1 l2 : list Event) :
  ids_of k (l1 ++ l2) = ids_of k l1 ++ ids_of k l2.
Proof. unfold ids_of. rewrite List.filter_app, map_app. reflexivity. Qed.

Lemma numbered_next (w w' : World) (j : uint256) :
  numbered w ->
  j = Counters.increment (_itemIds (market w)) ->
  issued (logs w') = issued (logs w) ++ [j] ->
  _itemIds (market w') = j ->
  numbered w'.
Proof.
  intros (n & Hi & Hc) -> Hl Hj. exists (S n). split.
  - rewrite Hl, Hi, seq_S, map_app. simpl. f_equal. f_equal.
    unfold Counters.increment. rewrite Hc.
    rewrite N.Div0.add_mod_idemp_l. f_equal. lia.
  - rewrite Hj. unfold Counters.increment. rewrite Hc.
    rewrite N.Div0.add_mod_idemp_l. f_equal. lia.
Qed.

Lemma numbered_same (w w' : World) :
  numbered w ->
  issued (logs w') = issued (logs w) ->
  _itemIds (market w') = _itemIds (market w) ->
  numbered w'.
Proof. intros (n & Hi & Hc) Hl Hj. exists n. rewrite Hl, Hj. auto. Qed.

Lemma ledger_inv_genesis deployer b (c : Custody) :
  ledger_inv (genesis Custody deployer b c).
Proof.
  split; simpl.
  - exists 0%nat. split; reflexivity.
  - intros i Hi. inversion Hi.
  - intros i _. unfold item, item_at. simpl. rewrite lookup_empty. simpl. auto.
  - reflexivity.
Qed.

Lemma ledger_inv_create m v nft tok p h lic url (w w' : World) :
  ledger_inv w ->
  createMarketItem m v nft tok p h lic url w = Ok w' ->
  ledger_inv w'.
Proof.
  intros [Hn Hi Hu Hf] H.
  apply createMarketItem_Ok in H as (Hp & _ & Hnft & Hm & Hl).
  set (j := Counters.increment (_itemIds (market w))) in *.
  assert (Hiss : issued (logs w') = issued (logs w) ++ [j]).
  { unfold issued. rewrite Hl, ids_of_app. reflexivity. }
  assert (Hsold : ids_of Sold (logs w') = ids_of Sold (logs w)).
  { rewrite Hl, ids_of_app. simpl. apply app_nil_r. }
  assert (Hitem : forall i, item w' i =
            if decide (j = i)
            then MarketItem.mk j nft tok (msg_sender m) address0 p h lic url
            else item w i).
  { intros i. unfold item. rewrite Hm. simpl. apply item_at_insert. }
  split.
  - eapply numbered_next; eauto. rewrite Hm. reflexivity.
  - intros i Hin. rewrite Hitem. rewrite Hiss in Hin.
    case_decide as Hj; [subst i; simpl; auto |].
    apply elem_of_app in Hin as [Hin | Hin]; [apply Hi, Hin |].
    apply list_elem_of_singleton in Hin. congruence.
  - intros i Hin. rewrite Hitem, Hsold. rewrite Hiss in Hin.
    case_decide as Hj.
    + exfalso. apply Hin. subst i. apply elem_of_app. right. constructor.
    + apply Hu. intros Hold. apply Hin, elem_of_app. auto.
  - rewrite Hm. simpl. exact Hf.
Qed.

Lemma ledger_inv_sale m v nft i (w w' : World) :
  ledger_inv w ->
  createMarketSale m v nft i w = Ok w' ->
  ledger_inv w'.
Proof.
  intros [Hn Hi Hu Hf] H.
  apply createMarketSale_Ok in H as (_ & _ & _ & _ & Hm & _ & _ & Hl).
  assert (Hiss : issued (logs w') = issued (logs w)).
  { unfold issued. rewrite Hl, ids_of_app. simpl. apply app_nil_r. }
  assert (Hsold : ids_of Sold (logs w') = ids_of Sold (logs w) ++ [i]).
  { rewrite Hl, ids_of_app. reflexivity. }
  assert (Hitem : forall k, item w' k =
            if decide (i = k)
            then MarketItem.set_owner (msg_sender m) (item w i)
            else item w k).
  { intros k. unfold item. rewrite Hm. simpl. apply item_at_insert. }
  split.
  - eapply numbered_same; eauto. rewrite Hm. reflexivity.
  - intros k Hin. rewrite Hitem. rewrite Hiss in Hin.
    case_decide as Hk; [subst k; simpl |]; apply Hi, Hin.
  - intros k Hin. rewrite Hitem, Hsold. rewrite Hiss in Hin.
    destruct (Hu k Hin) as (H1 & H2 & H3 & H4 & H5).
    case_decide as Hk.
    + subst k. simpl. repeat split; auto.
      intros Hno. exfalso. apply Hno, elem_of_app. right. constructor.
    + repeat split; auto. intros Hno. apply H5. intros Hold.
      apply Hno, elem_of_app. auto.
  - rewrite Hm. simpl. exact Hf.
Qed.

Lemma ledger_inv_relist m v i p (w w' : World) :
  ledger_inv w ->
  relistMarketItem m v i p w = Ok w' ->
  ledger_inv w'.
Proof.
  intros [Hn Hi Hu Hf] H.
  apply relistMarketItem_Ok in H as (_ & Hp & _ & Hnft & _ & Hm & Hl).
  assert (Hiss : issued (logs w') = issued (logs w)).
  { unfold issued. rewrite Hl, ids_of_app. simpl. apply app_nil_r. }
  assert (Hsold : ids_of Sold (logs w') = ids_of Sold (logs w)).
  { rewrite Hl, ids_of_app. simpl. apply app_nil_r. }
  assert (Hitem : forall k, item w' k =
            if decide (i = k)
            then MarketItem.set_price p
                   (MarketItem.set_owner address0
                      (MarketItem.set_seller (msg_sender m) (item w i)))
            else item w k).
  { intros k. unfold item. rewrite Hm. simpl. apply item_at_insert. }
  assert (Hin_i : i ∈ issued (logs w)).
  { destruct (decide (i ∈ issued (logs w))) as [Hin | Hout]; [exact Hin |].
    destruct (Hu i Hout) as (_ & H2 & _). contradiction. }
  split.
  - eapply numbered_same; eauto. rewrite Hm. reflexivity.
  - intros k Hin. rewrite Hitem. rewrite Hiss in Hin.
    case_decide as Hk; [subst k; simpl |]; [| apply Hi, Hin].
    destruct (Hi i Hin) as (H1 & H2 & H3). auto.
  - intros k Hin. rewrite Hitem, Hsold. rewrite Hiss in Hin.
    case_decide as Hk; [subst k; contradiction | apply Hu, Hin].
  - rewrite Hm. simpl. exact Hf.
Qed.

Lemma ledger_inv_cancel m i (w w' : World) :
  ledger_inv w ->
  cancelListing m i w = Ok w' ->
  ledger_inv w'.
Proof.
  intros [Hn Hi Hu Hf] H.
  apply cancelListing_Ok in H as (_ & _ & Hnft & Hm & _ & Hl).
  assert (Hiss : issued (logs w') = issued (logs w)).
  { unfold issued. rewrite Hl, ids_of_app. simpl. apply app_nil_r. }
  assert (Hsold : ids_of Sold (logs w') = ids_of Sold (logs w)).
  { rewrite Hl, ids_of_app. simpl. apply app_nil_r. }
  assert (Hitem : forall k, item w' k =
            if decide (i = k)
            then MarketItem.set_owner (msg_sender m) (item w i)
            else item w k).
  { intros k. unfold item. rewrite Hm. simpl. apply item_at_insert. }
  assert (Hin_i : i ∈ issued (logs w)).
  { destruct (decide (i ∈ issued (logs w))) as [Hin | Hout]; [exact Hin |].
    destruct (Hu i Hout) as (_ & H2 & _). contradiction. }
  split.
  - eapply numbered_same; eauto. rewrite Hm. reflexivity.
  - intros k Hin. rewrite Hitem. rewrite Hiss in Hin.
    case_decide as Hk; [subst k; simpl |]; apply Hi, Hin.
  - intros k Hin. rewrite Hitem, Hsold. rewrite Hiss in Hin.
    case_decide as Hk; [subst k; contradiction | apply Hu, Hin].
  - rewrite Hm. simpl. exact Hf.
Qed.

Lemma ledger_inv_execute m c (w w' : World) :
  ledger_inv w -> execute m c w = Ok w' -> ledger_inv w'.
Proof.
  intros Hw H. destruct c; simpl in H;
    eauto using ledger_inv_create, ledger_inv_sale, ledger_inv_relist,
      ledger_inv_cancel.
Qed.

Lemma commit_eq m c (w : World) :
  commit m c w = match execute m c w with Ok w' => w' | Err _ => w end.
Proof. reflexivity. Qed.

Lemma ledger_inv_commit m c (w : World) : ledger_inv w -> ledger_inv (commit m c w).
Proof.
  intros Hw. rewrite commit_eq.
  destruct (execute m c w) as [w' |] eqn:E; [| exact Hw].
  eapply ledger_inv_execute; eauto.
Qed.

Lemma reachable_inv (w : World) : reachable w -> ledger_inv w.
Proof.
  induction 1 as [deployer b c | m c w _ IH].
  - apply ledger_inv_genesis.
  - apply ledger_inv_commit, IH.
Qed.

Lemma reachable_run (txs : list (Msg * Call)) (w : World) :
  reachable w -> reachable (run txs w).
Proof.
  revert w. induction txs as [| [m c] txs IH]; intros w Hw; simpl; [exact Hw |].
  apply IH. constructor. exact Hw.
Qed.

(** A stored item was issued. *)
Lemma stored_issued (w : World) (i : uint256) :
  numbered w -> stored w i -> i ∈ issued (logs w).
Proof.
  intros (n & Hi & Hc) [H1 H2]. rewrite Hi. rewrite Hc in H2.
  assert (Hn : N.of_nat n mod 2 ^ 256 <= N.of_nat n) by (apply N.Div0.mod_le).
  assert (Hlt : N.of_nat n mod 2 ^ 256 < 2 ^ 256) by (apply N.mod_upper_bound; lia).
  apply list_elem_of_fmap. exists (N.to_nat i). split.
  - rewrite N2Nat.id. symmetry. apply N.mod_small. lia.
  - apply elem_of_seq. lia.
Qed.

(** ** Purchase of an item that was never created *)

(** C1 (amended).  For an item identifier that no create operation has issued
    and a payment different from zero, [purchase] fails and leaves the world
    as it was; the failure is the price mismatch of the contract whenever the
    caller holds the payment (there is no existence check, and no failure of
    its own for an unknown identifier). *)
Theorem purchase_of_unissued_item m v nft i (w : World) :
  reachable w -> i ∉ issued (logs w) -> v <> 0 ->
  (exists e, createMarketSale m v nft i w = Err e /\
     (v <= balance_of (balances w) (msg_sender m) -> e = PriceMismatch)) /\
  commit m (CreateMarketSale v nft i) w = w.
Proof.
  intros Hr Hi Hv. apply reachable_inv in Hr.
  destruct (inv_unissued _ _ Hr i Hi) as (_ & _ & Hp & _).
  assert (H : exists e, createMarketSale m v nft i w = Err e /\
     (v <= balance_of (balances w) (msg_sender m) -> e = PriceMismatch)).
  { unfold createMarketSale, payable.
    destruct (v <=? balance_of (balances w) (msg_sender m)) eqn:E; simpl.
    - unfold item in *. simpl. rewrite Hp.
      apply N.eqb_neq in Hv. rewrite Hv. simpl. eauto.
    - apply N.leb_gt in E. exists Unfunded. split; [reflexivity | lia]. }
  split; [exact H |].
  rewrite commit_eq. simpl. destruct H as (e & -> & _). reflexivity.
Qed.

(** ** Timestamps of the events *)

(** C2 (amended).  An accepted call appends exactly one event, of the kind of
    the call; a Sold, Relisted or Canceled event carries the block timestamp
    of the call, a Created event has no timestamp. *)
Theorem appended_event_timestamp m c (w w' : World) :
  execute m c w = Ok w' ->
  exists e, logs w' = logs w ++ [e] /\
    event_kind e = call_kind c /\
    event_timestamp e =
      match call_kind c with
      | Created => None
      | _ => Some (block_timestamp m)
      end.
Proof.
  intros H. destruct c; simpl in H.
  - apply createMarketItem_Ok in H as (_ & _ & _ & _ & Hl). eauto.
  - apply createMarketSale_Ok in H as (_ & _ & _ & _ & _ & _ & _ & Hl). eauto.
  - apply relistMarketItem_Ok in H as (_ & _ & _ & _ & _ & _ & Hl). eauto.
  - apply cancelListing_Ok in H as (_ & _ & _ & _ & _ & Hl). eauto.
Qed.

(** ** Relist *)

(** C8.  A relist succeeds only if the caller is the current owner of the
    item, the new price is positive and the fee paid is the listing fee;
    after it the owner is the none sentinel, the seller is the caller and the
    price is the new price. *)
Theorem relist_requires_and_ensures m v i p (w w' : World) :
  relistMarketItem m v i p w = Ok w' ->
  (MarketItem.owner (item w i) = msg_sender m /\ 0 < p /\
   v = listingPrice (market w)) /\
  (MarketItem.owner (item w' i) = address0 /\
   MarketItem.seller (item w' i) = msg_sender m /\
   MarketItem.price (item w' i) = p).
Proof.
  intros H. apply relistMarketItem_Ok in H as (Ho & Hp & Hv & _ & _ & Hm & _).
  split; [auto |].
  unfold item. rewrite Hm. simpl.
  rewrite item_at_insert, decide_True by reflexivity. simpl. auto.
Qed.

(** ** The ownership query *)


(** ** Identifier allocation *)

(** C4.  Whatever the operations run from the empty ledger, the identifiers
    issued by the creates that succeeded are 1, 2, 3, ... in this order, as
    long as fewer than 2^256 of them were issued (the range of the counter). *)
Theorem itemIds_issued_in_sequence txs deployer b (c : Custody) :
  let w := run txs (genesis Custody deployer b c) in
  N.of_nat (length (issued (logs w))) < 2 ^ 256 ->
  issued (logs w) = map N.of_nat (seq 1 (length (issued (logs w)))).
Proof.
  intros w Hlen.
  assert (Hr : reachable w) by (apply reachable_run; constructor).
  apply reachable_inv in Hr. destruct (inv_numbered _ _ Hr) as (n & Hi & _).
  rewrite Hi in Hlen |- *. rewrite length_map, length_seq in Hlen |- *.
  apply map_ext_in. intros k Hk. apply in_seq in Hk.
  apply N.mod_small. lia.
Qed.

(** ** Prices *)

(** C5.  In every world reachable from the empty ledger, every item that was
    created (the stored items, which are the identifiers issued) has a
    positive price. *)
Theorem stored_price_positive (w : World) (i : uint256) :
  reachable w -> stored w i \/ i ∈ issued (logs w) ->
  0 < MarketItem.price (item w i).
Proof.
  intros Hr Hi. apply reachable_inv in Hr.
  assert (Hin : i ∈ issued (logs w)).
  { destruct Hi as [Hs | Hin]; [| exact Hin].
    eapply stored_issued; [apply Hr | exact Hs]. }
  apply (inv_issued _ _ Hr i Hin).
Qed.

(** ** The active listings *)

Lemma for_range_Ok (n : uint256) :
  n <> max_uint256 -> for_range n = Ok (map N.of_nat (seq 1 (N.to_nat n))).
Proof.
  intros H. unfold for_range. apply N.eqb_neq in H. rewrite H. reflexivity.
Qed.

Lemma count_unsold_filter (w : World) (ids : list uint256) (c : uint256) :
  count_unsold Custody w ids c =
    c + N.of_nat (length (List.filter unsold (map (item w) ids))).
Proof.
  revert c. induction ids as [| i ids IH]; intros c; simpl.
  - lia.
  - destruct (unsold (item w i)); simpl; rewrite IH; lia.
Qed.

(** The second pass fills the slots left of the array one after the other:
    with as many free slots as the first pass counted, it ends with the
    array full and never writes out of bounds. *)
Lemma fill_unsold_filter (w : World) (ids : list uint256) (pre : list MarketItem.t) :
  fill_unsold Custody w ids
    (pre ++ replicate (length (List.filter unsold (map (item w) ids))) MarketItem.zero)
    (N.of_nat (length pre))
  = Ok (pre ++ List.filter unsold (map (item w) ids)).
Proof.
  revert pre. induction ids as [| i ids IH]; intros pre; simpl.
  - rewrite app_nil_r. reflexivity.
  - destruct (unsold (item w i)) eqn:E; simpl; [| apply IH].
    rewrite length_app. simpl.
    destruct (N.ltb_spec (N.of_nat (length pre))
                (N.of_nat (length pre + S (length (replicate
                   (length (List.filter unsold (map (item w) ids))) MarketItem.zero)))))
      as [_ | Hge]; [| lia].
    simpl. rewrite Nat2N.id.
    replace (length pre) with (length pre + 0)%nat at 1 by lia.
    rewrite insert_app_r. simpl.
    replace (N.of_nat (length pre) + 1) with (N.of_nat (length (pre ++ [item w i])))
      by (rewrite length_app; simpl; lia).
    rewrite (cons_middle (item w i) pre (replicate _ _)), app_assoc.
    rewrite (cons_middle (item w i) pre (List.filter _ _)), app_assoc.
    apply IH.
Qed.

Lemma fetchMarketItems_filter (w : World) :
  _itemIds (market w) <> max_uint256 ->
  fetchMarketItems w =
    Ok (List.filter unsold
          (map (item w) (map N.of_nat (seq 1 (N.to_nat (_itemIds (market w))))))) /\
  unsoldCount w =
    Ok (N.of_nat (length (List.filter unsold
          (map (item w) (map N.of_nat (seq 1 (N.to_nat (_itemIds (market w))))))))).
Proof.
  intros H. unfold fetchMarketItems, unsoldCount, Counters.current.
  rewrite (for_range_Ok _ H). simpl.
  rewrite count_unsold_filter, N.add_0_l, Nat2N.id. split; [| reflexivity].
  apply (fill_unsold_filter w _ []).
Qed.

Lemma StronglySorted_filter {A} (R : A -> A -> Prop) (f : A -> bool) (l : list A) :
  StronglySorted R l -> StronglySorted R (List.filter f l).
Proof.
  induction 1 as [| x l Hl IH Hx]; simpl; [constructor |].
  destruct (f x); [| exact IH].
  constructor; [exact IH |].
  rewrite List.Forall_forall in Hx |- *. intros y Hy.
  apply List.filter_In in Hy as [Hy _]. auto.
Qed.

Lemma StronglySorted_range (a n : nat) :
  StronglySorted N.lt (map N.of_nat (seq a n)).
Proof.
  revert a. induction n as [| n IH]; intros a; simpl; constructor; [apply IH |].
  rewrite List.Forall_forall. intros y Hy.
  apply in_map_iff in Hy as (k & <- & Hk). apply in_seq in Hk. lia.
Qed.

(** On the items of a reachable world the two conditions of [unsold] reduce to
    the first: a stored item carries its identifier, which is not zero. *)
Lemma unsold_stored (w : World) (i : uint256) :
  ledger_inv w -> stored w i ->
  MarketItem.itemId (item w i) = i /\
  unsold (item w i) = (MarketItem.owner (item w i) =? address0).
Proof.
  intros Hw Hs.
  destruct (inv_issued _ _ Hw i (stored_issued w i (inv_numbered _ _ Hw) Hs))
    as (Hid & _).
  split; [exact Hid |].
  unfold unsold. rewrite Hid. destruct Hs as [H1 _].
  destruct (N.eqb_spec i 0) as [-> | _]; [lia |]. simpl. apply andb_true_r.
Qed.

Lemma range_stored (w : World) (i : uint256) :
  In i (map N.of_nat (seq 1 (N.to_nat (_itemIds (market w))))) <-> stored w i.
Proof.
  unfold stored. rewrite in_map_iff. split.
  - intros (k & <- & Hk). apply in_seq in Hk. lia.
  - intros H. exists (N.to_nat i). rewrite N2Nat.id, in_seq. split; [reflexivity | lia].
Qed.

Lemma active_listing (w : World) :
  ledger_inv w -> _itemIds (market w) <> max_uint256 ->
  exists items,
    fetchMarketItems w = Ok items /\
    unsoldCount w = Ok (N.of_nat (length items)) /\
    (forall it, it ∈ items <->
       exists i, stored w i /\ it = item w i /\ MarketItem.owner it = address0) /\
    StronglySorted N.lt (map MarketItem.itemId items).
Proof.
  intros Hr Hmax.
  destruct (fetchMarketItems_filter w Hmax) as [Hf Hc].
  eexists. split; [exact Hf |]. split; [exact Hc |]. split.
  - intros it. rewrite list_elem_of_In, List.filter_In, in_map_iff. split.
    + intros [(i & <- & Hi) Hu]. apply range_stored in Hi.
      destruct (unsold_stored w i Hr Hi) as [_ Heq]. rewrite Heq in Hu.
      apply N.eqb_eq in Hu. eauto.
    + intros (i & Hi & -> & Ho).
      destruct (unsold_stored w i Hr Hi) as [_ Heq]. rewrite Heq.
      split; [| apply N.eqb_eq, Ho]. exists i. split; [reflexivity |].
      apply range_stored, Hi.
  - assert (Hids : forall ids : list N, (forall i, In i ids -> stored w i) ->
        map MarketItem.itemId (List.filter unsold (map (item w) ids)) =
        List.filter (fun i => unsold (item w i)) ids).
    { induction ids as [| i ids IH]; intros Hall; simpl; [reflexivity |].
      destruct (unsold (item w i)) eqn:E; simpl;
        rewrite IH by (intros; apply Hall; simpl; auto).
      - f_equal. apply (unsold_stored w i Hr). apply Hall. simpl. auto.
      - reflexivity. }
    rewrite Hids by (intros i Hi; apply range_stored, Hi).
    apply StronglySorted_filter, StronglySorted_range.
Qed.

(** An item whose owner is an account is not among the active listings. *)
Lemma owned_not_listed (w : World) (i : uint256) :
  ledger_inv w -> _itemIds (market w) <> max_uint256 ->
  MarketItem.owner (item w i) <> address0 ->
  exists items, fetchMarketItems w = Ok items /\
    forall x, x ∈ items -> MarketItem.itemId x <> i.
Proof.
  intros Hw Hmax Ho.
  destruct (active_listing w Hw Hmax) as (items & Hf & _ & Hin & _).
  exists items. split; [exact Hf |]. intros x Hx Hid.
  apply Hin in Hx as (j & Hj & -> & Hown).
  destruct (unsold_stored w j Hw Hj) as [Hidj _].
  rewrite Hidj in Hid. subst j. contradiction.
Qed.

(** C6.  In every reachable world (with the counter below the top of its
    range, where the loops do not overflow) [fetchMarketItems] returns exactly
    the stored items whose owner is the none sentinel, in ascending order of
    identifier, and as many of them as its first pass counted. *)
Theorem fetchMarketItems_exact (w : World) :
  reachable w -> _itemIds (market w) <> max_uint256 ->
  exists items,
    fetchMarketItems w = Ok items /\
    unsoldCount w = Ok (N.of_nat (length items)) /\
    (forall it, it ∈ items <->
       exists i, stored w i /\ it = item w i /\ MarketItem.owner it = address0) /\
    StronglySorted N.lt (map MarketItem.itemId items).
Proof.
  intros Hr Hmax. apply active_listing; [apply reachable_inv, Hr | exact Hmax].
Qed.

(** ** Purchase *)

Lemma four_distinct (a b c d : N) :
  NoDup [a; b; c; d] -> a <> b /\ a <> c /\ a <> d /\ b <> c /\ b <> d /\ c <> d.
Proof.
  rewrite !NoDup_cons, !not_elem_of_cons. tauto.
Qed.

Lemma payable_pass m v (w : World) :
  v <= balance_of (balances w) (msg_sender m) ->
  payable m v w =
    Ok (with_balances Custody (move (msg_sender m) this v (balances w)) w).
Proof.
  intros H. unfold payable. apply N.leb_le in H. rewrite H. reflexivity.
Qed.

Lemma transfer_pass to v (w : World) :
  v <= balance_of (balances w) this -> receives to = true ->
  transfer to v w = Ok (with_balances Custody (move this to v (balances w)) w).
Proof.
  intros H Hr. unfold transfer. apply N.leb_le in H. rewrite H, Hr. reflexivity.
Qed.

Lemma IERC721_transferFrom_pass nft from to tok c (w : World) :
  nft <> address0 ->
  transferFrom nft this from to tok (custody w) = Some c ->
  IERC721_transferFrom nft from to tok w = Ok (with_custody Custody c w).
Proof.
  intros H Hc. unfold IERC721_transferFrom.
  apply N.eqb_neq in H. rewrite H, Hc. reflexivity.
Qed.

(** C7 (amended).  In a reachable world, when the buyer (an account, not the
    zero address), the seller of the item, the operator and the market are
    four different accounts, a purchase paying exactly the stored price
    succeeds provided the buyer holds the payment, the market holds the
    listing fee in escrow, the seller and the operator accept their payments
    and the asset contract named in the call carries out the transfer to the
    buyer; its effect is then: the owner of the item is the buyer, the balance
    of the seller has grown by the price and that of the operator by the
    listing fee, the item is not among the active listings, and a Sold event
    with seller, buyer, price and block timestamp is appended. *)
Theorem purchase_effect m v nft i c' (w : World) :
  let it := item w i in
  let buyer := msg_sender m in
  let seller := MarketItem.seller it in
  let operator := owner (market w) in
  reachable w -> _itemIds (market w) <> max_uint256 ->
  v = MarketItem.price it ->
  v <= balance_of (balances w) buyer ->
  listingPrice (market w) <= balance_of (balances w) this ->
  receives seller = true -> receives operator = true ->
  nft <> address0 ->
  transferFrom nft this this buyer (MarketItem.tokenId it) (custody w) = Some c' ->
  NoDup [this; buyer; seller; operator] -> buyer <> address0 ->
  exists w',
    createMarketSale m v nft i w = Ok w' /\
    MarketItem.owner (item w' i) = buyer /\
    balance_of (balances w') seller
      = balance_of (balances w) seller + MarketItem.price it /\
    balance_of (balances w') operator
      = balance_of (balances w) operator + listingPrice (market w) /\
    (exists items, fetchMarketItems w' = Ok items /\
       forall x, x ∈ items -> MarketItem.itemId x <> i) /\
    logs w' =
      logs w ++ [MarketItemSold i nft (MarketItem.tokenId it) seller buyer
                   (MarketItem.price it) (block_timestamp m)].
Proof.
  intros it buyer seller operator Hr Hmax Hv Hfund Hfee Hrs Hro Hnft Hc Hnd Hb0.
  subst it buyer seller operator.
  set (buyer := msg_sender m) in *.
  set (seller := MarketItem.seller (item w i)) in *.
  set (operator := owner (market w)) in *.
  apply four_distinct in Hnd as (Htb & Hts & Hto & Hbs & Hbo & Hso).
  assert (B1 : forall a, balance_of (move buyer this v (balances w)) a =
             balance_of (balances w) a + (if decide (this = a) then v else 0)
               - (if decide (buyer = a) then v else 0))
    by (intros a; apply balance_of_move, Hfund).
  assert (B2 : forall a,
             balance_of (move this seller v (move buyer this v (balances w))) a =
             balance_of (move buyer this v (balances w)) a
               + (if decide (seller = a) then v else 0)
               - (if decide (this = a) then v else 0)).
  { intros a. apply balance_of_move. rewrite B1.
    repeat case_decide; try congruence; lia. }
  assert (Hthis : balance_of (move this seller v (move buyer this v (balances w))) this
                  = balance_of (balances w) this).
  { rewrite B2, B1. repeat case_decide; try congruence; lia. }
  assert (B3 : forall a,
             balance_of (move this operator (listingPrice (market w))
                (move this seller v (move buyer this v (balances w)))) a =
             balance_of (move this seller v (move buyer this v (balances w))) a
               + (if decide (operator = a) then listingPrice (market w) else 0)
               - (if decide (this = a) then listingPrice (market w) else 0)).
  { intros a. apply balance_of_move. rewrite Hthis. exact Hfee. }
  destruct (createMarketSale m v nft i w) as [w' | e] eqn:E.
  - pose proof (ledger_inv_sale _ _ _ _ _ _ (reachable_inv _ Hr) E) as Hinv'.
    apply createMarketSale_Ok in E as (_ & _ & _ & _ & Hm & Hbal & _ & Hl).
    fold seller buyer operator in Hm, Hbal, Hl.
    assert (Ho : MarketItem.owner (item w' i) = buyer).
    { unfold item. rewrite Hm. simpl.
      rewrite item_at_insert, decide_True by reflexivity. reflexivity. }
    exists w'. split; [reflexivity |]. split; [exact Ho |].
    rewrite Hbal. split; [| split; [| split; [| exact Hl]]].
    + rewrite B3, B2, B1. subst v.
      repeat case_decide; try congruence; lia.
    + rewrite B3, B2, B1.
      repeat case_decide; try congruence; lia.
    + apply owned_not_listed; [exact Hinv' | | rewrite Ho; exact Hb0].
      rewrite Hm. simpl. exact Hmax.
  - exfalso. revert E. unfold createMarketSale.
    rewrite (payable_pass _ _ _ Hfund).
    subst seller buyer operator. unfold item in *. simpl.
    rewrite <- Hv, N.eqb_refl. simpl.
    rewrite transfer_pass; simpl;
      [| rewrite B1; repeat case_decide; try congruence; lia | exact Hrs].
    erewrite IERC721_transferFrom_pass; simpl; [| exact Hnft | exact Hc].
    rewrite transfer_pass; simpl; [discriminate | | exact Hro].
    rewrite Hthis. exact Hfee.
Qed.

(** ** Cancel *)

(** C9 (amended).  On an item of a reachable world: a cancel while the owner
    is not the none sentinel fails with [AlreadySold] and leaves the world as
    it was; a cancel by the seller (an account, not the zero address) while
    the owner is the none sentinel succeeds provided the asset contract of
    the item carries out the transfer back to the seller, and then the owner
    of the item is the caller and the item is not among the active
    listings. *)
Theorem cancel_effect m i (w : World) :
  reachable w -> _itemIds (market w) <> max_uint256 -> stored w i ->
  (MarketItem.owner (item w i) <> address0 ->
     cancelListing m i w = Err AlreadySold /\
     commit m (CancelListing i) w = w) /\
  (MarketItem.owner (item w i) = address0 ->
   MarketItem.seller (item w i) = msg_sender m ->
   msg_sender m <> address0 ->
   forall c',
     transferFrom (MarketItem.nftContract (item w i)) this this (msg_sender m)
       (MarketItem.tokenId (item w i)) (custody w) = Some c' ->
     exists w',
       cancelListing m i w = Ok w' /\
       MarketItem.owner (item w' i) = msg_sender m /\
       exists items, fetchMarketItems w' = Ok items /\
         forall x, x ∈ items -> MarketItem.itemId x <> i).
Proof.
  intros Hr Hmax Hs. apply reachable_inv in Hr. split.
  - intros Ho. assert (E : cancelListing m i w = Err AlreadySold).
    { unfold cancelListing. apply N.eqb_neq in Ho. rewrite Ho. reflexivity. }
    split; [exact E |]. rewrite commit_eq. simpl. rewrite E. reflexivity.
  - intros Ho Hsel Hs0 c' Hc.
    destruct (inv_issued _ _ Hr i (stored_issued w i (inv_numbered _ _ Hr) Hs))
      as (_ & _ & Hnft).
    destruct (cancelListing m i w) as [w' | e] eqn:E.
    + pose proof (ledger_inv_cancel _ _ _ _ Hr E) as Hinv'.
      apply cancelListing_Ok in E as (_ & _ & _ & Hm & _ & _).
      assert (Hown : MarketItem.owner (item w' i) = msg_sender m).
      { unfold item. rewrite Hm. simpl.
        rewrite item_at_insert, decide_True by reflexivity. reflexivity. }
      exists w'. split; [reflexivity |]. split; [exact Hown |].
      apply owned_not_listed; [exact Hinv' | | rewrite Hown; exact Hs0].
      rewrite Hm. simpl. exact Hmax.
    + exfalso. revert E. unfold cancelListing.
      rewrite Ho, Hsel, !N.eqb_refl. simpl.
      erewrite IERC721_transferFrom_pass; simpl; [discriminate | exact Hnft | exact Hc].
Qed.

End Properties.

(** ** The history reconstructor *)

(** *** The sort *)

Section Sort.

Context {A : Type} (key : A -> Z).

Local Abbreviation cmp := (fun a b : A => (key a - key b)%Z).
Local Abbreviation ascending := (StronglySorted (fun a b : A => (key a <= key b)%Z)).

Lemma sort_insert_perm (c : A -> A -> Z) (x : A) (l : list A) :
  Permutation (sort_insert c x l) (x :: l).
Proof.
  induction l as [| y l IH]; simpl; [reflexivity |].
  destruct (c x y <=? 0)%Z; [reflexivity |].
  rewrite IH. apply perm_swap.
Qed.

Lemma array_sort_perm (c : A -> A -> Z) (l : list A) :
  Permutation (array_sort c l) l.
Proof.
  induction l as [| x l IH]; simpl; [reflexivity |].
  rewrite sort_insert_perm. constructor. exact IH.
Qed.

Lemma sort_insert_ascending (x : A) (l : list A) :
  ascending l -> ascending (sort_insert cmp x l).
Proof.
  induction 1 as [| y l Hl IH Hy]; simpl.
  - repeat constructor.
  - destruct (Z.leb_spec (key x - key y) 0) as [Hle | Hgt].
    + constructor; [constructor; assumption |].
      constructor; [lia |].
      eapply Forall_impl; [exact Hy |]. simpl. intros z Hz. lia.
    + constructor; [exact IH |].
      rewrite (sort_insert_perm cmp x l). constructor; [lia | exact Hy].
Qed.

Lemma array_sort_ascending (l : list A) : ascending (array_sort cmp l).
Proof.
  induction l as [| x l IH]; simpl; [constructor |].
  apply sort_insert_ascending, IH.
Qed.

(** The sort is stable: an array already in ascending order, ties included,
    is returned as it is. *)
Lemma array_sort_fixes_ascending (l : list A) :
  ascending l -> array_sort cmp l = l.
Proof.
  induction 1 as [| x l Hl IH Hx]; simpl; [reflexivity |].
  rewrite IH. destruct Hx as [| y l' Hy _]; simpl; [reflexivity |].
  destruct (Z.leb_spec (key x - key y) 0); [reflexivity | lia].
Qed.

End Sort.

(** *** The queries *)

Lemma filter_andb {A} (f g : A -> bool) (l : list A) :
  List.filter (fun x => f x && g x) l = List.filter f (List.filter g l).
Proof.
  induction l as [| x l IH]; simpl; [reflexivity |].
  destruct (g x); simpl; rewrite ?andb_true_r, ?andb_false_r;
    [destruct (f x) |]; simpl; rewrite IH; reflexivity.
Qed.

Lemma queryFilter_of_item (k : Kind) (id : uint256) (log : list Event) :
  queryFilter k id log =
    List.filter (fun e => Kind_eqb (event_kind e) k)
      (List.filter (fun e => event_itemId e =? id) log).
Proof. unfold queryFilter. apply filter_andb. Qed.

Section HistoryProperties.

Variable toString : N -> string.
Variable formatEther : N -> string.

Local Abbreviation entry := (entry toString formatEther).
Local Abbreviation fetchItemHistories := (fetchItemHistories toString formatEther).

(** Whatever the log, what the reconstructor returns is in ascending order of
    timestamp, a missing timestamp counting as 0, and has one entry for each
    event of the item of one of the four kinds. *)
Lemma fetchItemHistories_ascending (log : list Event) (id : uint256)
    (events : list HistoryEntry.t) :
  fetchItemHistories log id = Some events ->
  StronglySorted
    (fun a b => (null_to_number (HistoryEntry.timestamp a)
                 <= null_to_number (HistoryEntry.timestamp b))%Z) events /\
  length events =
    length (queryFilter Created id log ++ queryFilter Sold id log ++
            queryFilter Relisted id log ++ queryFilter Canceled id log).
Proof.
  unfold fetchItemHistories.
  generalize (queryFilter Created id log ++ queryFilter Sold id log ++
              queryFilter Relisted id log ++ queryFilter Canceled id log).
  intros l H. destruct (for_each entry l) as [es |] eqn:E; [| discriminate].
  injection H as <-. split.
  - apply (array_sort_ascending (fun a => null_to_number (HistoryEntry.timestamp a))).
  - rewrite (Permutation_length (array_sort_perm _ es)).
    revert es E. induction l as [| e l IH]; simpl; intros es E.
    + injection E as <-. reflexivity.
    + destruct (entry e); [| discriminate].
      destruct (for_each entry l) as [es' |]; [| discriminate].
      injection E as <-. simpl. f_equal. apply IH. reflexivity.
Qed.

(** C3.  When the events of an item in the log are one Created, one Sold, one
    Relisted and one Canceled event, in this order and with timestamps that
    do not decrease (and are in the range of a JavaScript integer), the
    reconstructor returns exactly four entries, tagged LISTED, SOLD, RELISTED,
    CANCELED in this order, ascending by timestamp. *)
Theorem history_of_full_lifecycle (log : list Event) (id : uint256)
    (c s r x : Event) (ts tr tx : uint256) :
  List.filter (fun e => event_itemId e =? id) log = [c; s; r; x] ->
  event_kind c = Created -> event_kind s = Sold ->
  event_kind r = Relisted -> event_kind x = Canceled ->
  event_timestamp s = Some ts -> event_timestamp r = Some tr ->
  event_timestamp x = Some tx ->
  ts <= tr -> tr <= tx -> tx <= 2 ^ 53 - 1 ->
  exists hc hs hr hx,
    fetchItemHistories log id = Some [hc; hs; hr; hx] /\
    (entry c = Some hc /\ entry s = Some hs /\ entry r = Some hr /\ entry x = Some hx) /\
    map HistoryEntry.type [hc; hs; hr; hx] = ["LISTED"; "SOLD"; "RELISTED"; "CANCELED"]%string /\
    map HistoryEntry.timestamp [hc; hs; hr; hx] = [None; Some ts; Some tr; Some tx] /\
    StronglySorted (fun a b => (by_timestamp a b <= 0)%Z) [hc; hs; hr; hx].
Proof.
  intros Hlog Kc Ks Kr Kx Ts Tr Tx H1 H2 H3.
  unfold fetchItemHistories. rewrite !queryFilter_of_item, Hlog. simpl.
  rewrite Kc, Ks, Kr, Kx. simpl.
  destruct c as [ci cn ctok cs co cp ch cl cu | | |]; try discriminate Kc.
  destruct s as [| si sn stok ss sb sp st | |]; try discriminate Ks.
  destruct r as [| | ri rn rtok rs rp rt |]; try discriminate Kr.
  destruct x as [| | | xi xn xtok xs xt]; try discriminate Kx.
  simpl in Ts, Tr, Tx. injection Ts as ->. injection Tr as ->. injection Tx as ->.
  simpl. unfold toNumber.
  assert (E1 : (ts <=? 2 ^ 53 - 1) = true) by (apply N.leb_le; lia).
  assert (E2 : (tr <=? 2 ^ 53 - 1) = true) by (apply N.leb_le; lia).
  assert (E3 : (tx <=? 2 ^ 53 - 1) = true) by (apply N.leb_le; lia).
  rewrite E1, E2, E3.
  assert (Hsorted : StronglySorted
            (fun a b => (null_to_number (HistoryEntry.timestamp a)
                         <= null_to_number (HistoryEntry.timestamp b))%Z)
            [HistoryEntry.mk "LISTED" (toString ci) (toString ctok) cs None
               (Some (formatEther cp)) None;
             HistoryEntry.mk "SOLD" (toString si) (toString stok) sb
               (Some ss) (Some (formatEther sp)) (Some ts);
             HistoryEntry.mk "RELISTED" (toString ri) (toString rtok) rs
               None (Some (formatEther rp)) (Some tr);
             HistoryEntry.mk "CANCELED" (toString xi) (toString xtok) xs
               None None (Some tx)]).
  { repeat (constructor; simpl); lia. }
  do 4 eexists. split.
  - f_equal. apply (array_sort_fixes_ascending
                      (fun a => null_to_number (HistoryEntry.timestamp a))).
    exact Hsorted.
  - repeat split; try reflexivity.
    repeat (constructor; simpl); unfold by_timestamp; simpl; lia.
Qed.

End HistoryProperties.

(** ** The properties on the concrete worlds *)

Section Concrete.

Import Scenario.

Local Abbreviation reachable := (reachable _ ERC721.transferFrom this accepts).
Local Abbreviation createMarketSale := (createMarketSale _ ERC721.transferFrom this accepts).
Local Abbreviation relistMarketItem := (relistMarketItem _ ERC721.transferFrom this).
Local Abbreviation cancelListing := (cancelListing _ ERC721.transferFrom this).

Lemma reachable_w1 : reachable w1.
Proof. unfold w1, step. apply reachable_commit, reachable_genesis. Defined.

Lemma reachable_w2 : reachable w2.
Proof. unfold w2, step. apply reachable_commit, reachable_w1. Defined.

Lemma reachable_w3 : reachable w3.
Proof. unfold w3, step. apply reachable_commit, reachable_w2. Defined.

Lemma reachable_z1 : reachable z1.
Proof. unfold z1, step. apply reachable_commit, reachable_genesis. Defined.

Lemma reachable_s3 : reachable s3.
Proof.
  unfold s3, s2, s1, step. do 3 apply reachable_commit. apply reachable_genesis.
Defined.

(** C1, counterexample.  Item 1 of [z1] holds asset 0 of contract 50.  The
    identifier 9 was never issued, yet the purchase of item 9 with no payment
    is accepted and writes the caller as owner at key 9 of the mapping. *)
Lemma purchase_of_unissued_item_accepted :
  reachable z1 /\ (9 ∉ issued (logs z1)) /\
  exists w',
    createMarketSale (mkMsg 4 1001) 0 50 9 z1 = Ok w' /\
    idToMarketItem (market z1) !! 9 = None /\
    idToMarketItem (market w') !! 9 = Some (MarketItem.set_owner 4 MarketItem.zero).
Proof.
  split; [exact reachable_z1 |]. split.
  - replace (issued (logs z1)) with [1] by (vm_compute; reflexivity).
    intros H. apply list_elem_of_singleton in H. discriminate.
  - eexists. split; [vm_compute; reflexivity |]. split; vm_compute; reflexivity.
Qed.

Lemma purchase_of_unissued_item_witness :
  (exists e, createMarketSale (mkMsg 4 1001) 5 50 9 w1 = Err e /\
     (5 <= balance_of (balances w1) 4 -> e = PriceMismatch)) /\
  commit _ ERC721.transferFrom this accepts (mkMsg 4 1001) (CreateMarketSale 5 50 9) w1 = w1.
Proof.
  apply (purchase_of_unissued_item _ ERC721.transferFrom this accepts
           (mkMsg 4 1001) 5 50 9 w1).
  - exact reachable_w1.
  - replace (issued (logs w1)) with [1] by (vm_compute; reflexivity).
    intros H. apply list_elem_of_singleton in H. discriminate.
  - discriminate.
Defined.

(** C2, counterexample.  The event the create of [w1] appended is a Created
    event, and it carries no timestamp. *)
Lemma created_event_without_timestamp :
  exists e, logs w1 = [e] /\ event_kind e = Created /\ event_timestamp e = None.
Proof. eexists. split; [vm_compute; reflexivity |]. split; reflexivity. Qed.

Lemma appended_event_timestamp_witness :
  exists e, logs w2 = logs w1 ++ [e] /\
    event_kind e = Sold /\ event_timestamp e = Some 1001.
Proof.
  destruct (exec (mkMsg 3 1001) (CreateMarketSale 10 50 1) w1) as [w' | e] eqn:E.
  - assert (Hw : w2 = w').
    { unfold w2, step. rewrite commit_eq. unfold exec in E. rewrite E. reflexivity. }
    rewrite Hw.
    exact (appended_event_timestamp _ ERC721.transferFrom this accepts
             (mkMsg 3 1001) (CreateMarketSale 10 50 1) w1 w' E).
  - vm_compute in E. discriminate E.
Defined.

(** C3 on the log of [w4]. *)
Lemma history_of_full_lifecycle_witness :
  exists hc hs hr hx,
    fetchItemHistories render render (logs w4) 1 = Some [hc; hs; hr; hx] /\
    (entry render render (MarketItemCreated 1 50 7 2 0 10 0 "personal" "") = Some hc /\
     entry render render (MarketItemSold 1 50 7 2 3 10 1001) = Some hs /\
     entry render render (MarketItemRelisted 1 50 7 3 15 1002) = Some hr /\
     entry render render (MarketItemCanceled 1 50 7 3 1003) = Some hx) /\
    map HistoryEntry.type [hc; hs; hr; hx]
      = ["LISTED"; "SOLD"; "RELISTED"; "CANCELED"]%string /\
    map HistoryEntry.timestamp [hc; hs; hr; hx]
      = [None; Some 1001; Some 1002; Some 1003] /\
    StronglySorted (fun a b => (by_timestamp a b <= 0)%Z) [hc; hs; hr; hx].
Proof.
  apply (history_of_full_lifecycle render render (logs w4) 1
           (MarketItemCreated 1 50 7 2 0 10 0 "personal" "")
           (MarketItemSold 1 50 7 2 3 10 1001)
           (MarketItemRelisted 1 50 7 3 15 1002)
           (MarketItemCanceled 1 50 7 3 1003) 1001 1002 1003);
    solve [reflexivity | lia].
Defined.

Lemma itemIds_issued_in_sequence_witness :
  issued (logs (run _ ERC721.transferFrom this accepts life w0))
  = map N.of_nat
      (seq 1 (length (issued (logs (run _ ERC721.transferFrom this accepts life w0))))).
Proof.
  apply (itemIds_issued_in_sequence _ ERC721.transferFrom this accepts life
           operator purses (<[(50, 7) := 2]> ∅)).
  vm_compute. reflexivity.
Defined.

Lemma stored_price_positive_witness : 0 < MarketItem.price (item w3 1).
Proof.
  apply (stored_price_positive _ ERC721.transferFrom this accepts w3 1 reachable_w3).
  left. unfold stored. vm_compute. split; discriminate.
Defined.

Lemma fetchMarketItems_exact_witness :
  exists items,
    fetchMarketItems _ w3 = Ok items /\
    unsoldCount _ w3 = Ok (N.of_nat (length items)) /\
    (forall it, it ∈ items <->
       exists i, stored w3 i /\ it = item w3 i /\ MarketItem.owner it = address0) /\
    StronglySorted N.lt (map MarketItem.itemId items).
Proof.
  apply (fetchMarketItems_exact _ ERC721.transferFrom this accepts w3 reachable_w3).
  vm_compute. discriminate.
Defined.

(** C7, counterexample.  Item 1 of [w2] exists and has the price 10; it was
    sold to account 3.  A purchase by account 4, who holds the 10 it pays,
    is rejected whatever asset contract the call names: the market no longer
    holds the listing fee it has to pay out. *)
Lemma purchase_of_sold_item_rejected :
  reachable w2 /\ stored w2 1 /\ MarketItem.price (item w2 1) = 10 /\
  10 <= balance_of (balances w2) 4 /\
  forall nft, exists e, createMarketSale (mkMsg 4 1004) 10 nft 1 w2 = Err e.
Proof.
  split; [exact reachable_w2 |].
  split; [unfold stored; vm_compute; split; discriminate |].
  split; [vm_compute; reflexivity |].
  split; [vm_compute; discriminate |].
  intros nft. destruct (createMarketSale (mkMsg 4 1004) 10 nft 1 w2) as [w' | e] eqn:E.
  - exfalso.
    apply createMarketSale_Ok in E as (_ & _ & _ & _ & _ & _ & Hfee & _).
    vm_compute in Hfee. apply Hfee. reflexivity.
  - eauto.
Qed.

Lemma purchase_effect_witness :
  exists w',
    createMarketSale (mkMsg 3 1001) 10 50 1 w1 = Ok w' /\
    MarketItem.owner (item w' 1) = 3 /\
    balance_of (balances w') (MarketItem.seller (item w1 1))
      = balance_of (balances w1) (MarketItem.seller (item w1 1))
        + MarketItem.price (item w1 1) /\
    balance_of (balances w') (owner (market w1))
      = balance_of (balances w1) (owner (market w1)) + listingPrice (market w1) /\
    (exists items, fetchMarketItems _ w' = Ok items /\
       forall x, x ∈ items -> MarketItem.itemId x <> 1) /\
    logs w' =
      logs w1 ++ [MarketItemSold 1 50 (MarketItem.tokenId (item w1 1))
                    (MarketItem.seller (item w1 1)) 3
                    (MarketItem.price (item w1 1)) 1001].
Proof.
  eapply (purchase_effect _ ERC721.transferFrom this accepts (mkMsg 3 1001) 10 50 1 _ w1).
  - exact reachable_w1.
  - vm_compute. discriminate.
  - vm_compute. reflexivity.
  - vm_compute. discriminate.
  - vm_compute. discriminate.
  - reflexivity.
  - reflexivity.
  - discriminate.
  - vm_compute. reflexivity.
  - apply (bool_decide_unpack _). vm_compute. exact I.
  - discriminate.
Defined.

Lemma relist_requires_and_ensures_witness :
  (MarketItem.owner (item w2 1) = 3 /\ 0 < 15 /\ fee = listingPrice (market w2)) /\
  (MarketItem.owner (item w3 1) = address0 /\
   MarketItem.seller (item w3 1) = 3 /\
   MarketItem.price (item w3 1) = 15).
Proof.
  destruct (relistMarketItem (mkMsg 3 1002) fee 1 15 w2) as [w' | e] eqn:E.
  - assert (Hw : w3 = w').
    { unfold w3, step. rewrite commit_eq. unfold execute. rewrite E. reflexivity. }
    rewrite Hw.
    exact (relist_requires_and_ensures _ ERC721.transferFrom this
             (mkMsg 3 1002) fee 1 15 w2 w' E).
  - vm_compute in E. discriminate E.
Defined.

(** C9, counterexample.  In [s3] item 2 is listed by account 3 (its owner is
    the none sentinel), but the purchase of item 1 that named the asset
    contract of item 2 has taken its asset out of the market: the cancel by
    the seller is rejected. *)
Lemma cancel_by_seller_rejected :
  reachable s3 /\ stored s3 2 /\
  MarketItem.owner (item s3 2) = address0 /\
  MarketItem.seller (item s3 2) = 3 /\
  cancelListing (mkMsg 3 1003) 2 s3 = Err CustodyRejected.
Proof.
  split; [exact reachable_s3 |].
  split; [unfold stored; vm_compute; split; discriminate |].
  repeat split; vm_compute; reflexivity.
Qed.

Lemma cancel_effect_witness :
  (cancelListing (mkMsg 2 1004) 1 w2 = Err AlreadySold /\
   commit _ ERC721.transferFrom this accepts (mkMsg 2 1004) (CancelListing 1) w2 = w2) /\
  (exists w',
     cancelListing (mkMsg 3 1003) 1 w3 = Ok w' /\
     MarketItem.owner (item w' 1) = 3 /\
     exists items, fetchMarketItems _ w' = Ok items /\
       forall x, x ∈ items -> MarketItem.itemId x <> 1).
Proof.
  split.
  - apply (cancel_effect _ ERC721.transferFrom this accepts (mkMsg 2 1004) 1 w2
             reachable_w2).
    + vm_compute. discriminate.
    + unfold stored. vm_compute. split; discriminate.
    + vm_compute. discriminate.
  - eapply (cancel_effect _ ERC721.transferFrom this accepts (mkMsg 3 1003) 1 w3
              reachable_w3).
    + vm_compute. discriminate.
    + unfold stored. vm_compute. split; discriminate.
    + vm_compute. reflexivity.
    + vm_compute. reflexivity.
    + discriminate.
    + vm_compute. reflexivity.
Defined.


End Concrete.

(** * Further properties of the ledger *)

Section Ledger.

Variable Custody : Type.
Variable transferFrom :
  address -> address -> address -> address -> uint256 -> Custody -> option Custody.
Variable this : address.
Variable receives : address -> bool.

Local Abbreviation World := (World Custody).
Local Abbreviation payable := (payable Custody this).
Local Abbreviation transfer := (transfer Custody this receives).
Local Abbreviation IERC721_transferFrom := (IERC721_transferFrom Custody transferFrom this).
Local Abbreviation createMarketItem := (createMarketItem Custody transferFrom this).
Local Abbreviation createMarketSale := (createMarketSale Custody transferFrom this receives).
Local Abbreviation relistMarketItem := (relistMarketItem Custody transferFrom this).
Local Abbreviation cancelListing := (cancelListing Custody transferFrom this).
Local Abbreviation execute := (execute Custody transferFrom this receives).
Local Abbreviation commit := (commit Custody transferFrom this receives).
Local Abbreviation reachable := (reachable Custody transferFrom this receives).
Local Abbreviation run := (run Custody transferFrom this receives).
Local Abbreviation fetchMarketItems := (fetchMarketItems Custody).
Local Abbreviation fetchMyNFTs := (fetchMyNFTs Custody).
Local Abbreviation getDataInfo := (getDataInfo Custody).
Local Abbreviation getListingPrice := (getListingPrice Custody).
Local Abbreviation verifyOwnership := (verifyOwnership Custody).

(** ** What a call leaves alone *)

(** The record at key [k] after an accepted call. *)
Lemma execute_item m c (w w' : World) (k : uint256) :
  execute m c w = Ok w' ->
  match c with
  | CreateMarketItem v nft tok p h lic url =>
      item w' k =
        if decide (Counters.increment (_itemIds (market w)) = k)
        then MarketItem.mk k nft tok (msg_sender m) address0 p h lic url
        else item w k
  | CreateMarketSale _ _ i | CancelListing i =>
      item w' k =
        if decide (i = k) then MarketItem.set_owner (msg_sender m) (item w i)
        else item w k
  | RelistMarketItem _ i p =>
      item w' k =
        if decide (i = k)
        then MarketItem.set_price p
               (MarketItem.set_owner address0
                  (MarketItem.set_seller (msg_sender m) (item w i)))
        else item w k
  end.
Proof.
  intros H. destruct c; simpl in H.
  - apply createMarketItem_Ok in H as (_ & _ & _ & Hm & _).
    unfold item. rewrite Hm. simpl. rewrite item_at_insert.
    case_decide as E; [rewrite <- E |]; reflexivity.
  - apply createMarketSale_Ok in H as (_ & _ & _ & _ & Hm & _).
    unfold item. rewrite Hm. simpl. apply item_at_insert.
  - apply relistMarketItem_Ok in H as (_ & _ & _ & _ & _ & Hm & _).
    unfold item. rewrite Hm. simpl. apply item_at_insert.
  - apply cancelListing_Ok in H as (_ & _ & _ & Hm & _).
    unfold item. rewrite Hm. simpl. apply item_at_insert.
Qed.

Lemma execute_constants m c (w w' : World) :
  execute m c w = Ok w' ->
  owner (market w') = owner (market w) /\
  listingPrice (market w') = listingPrice (market w).
Proof.
  intros H. destruct c; simpl in H.
  - apply createMarketItem_Ok in H as (_ & _ & _ & Hm & _). rewrite Hm. auto.
  - apply createMarketSale_Ok in H as (_ & _ & _ & _ & Hm & _). rewrite Hm. auto.
  - apply relistMarketItem_Ok in H as (_ & _ & _ & _ & _ & Hm & _). rewrite Hm. auto.
  - apply cancelListing_Ok in H as (_ & _ & _ & Hm & _). rewrite Hm. auto.
Qed.

Lemma execute_logs m c (w w' : World) :
  execute m c w = Ok w' -> exists e, logs w' = logs w ++ [e] /\ event_kind e = call_kind c.
Proof.
  intros H. destruct c; simpl in H.
  - apply createMarketItem_Ok in H as (_ & _ & _ & _ & Hl). eauto.
  - apply createMarketSale_Ok in H as (_ & _ & _ & _ & _ & _ & _ & Hl). eauto.
  - apply relistMarketItem_Ok in H as (_ & _ & _ & _ & _ & _ & Hl). eauto.
  - apply cancelListing_Ok in H as (_ & _ & _ & _ & _ & Hl). eauto.
Qed.

(** X1.  The asset and the data attached to an item never change: a
    transaction, accepted or not, leaves the identifier, the asset contract,
    the asset id and the data info of every record as they were, except for
    the record a create writes at the identifier it issues. *)
Theorem item_data_immutable m c (w : World) (k : uint256) :
  (call_kind c = Created -> k <> Counters.increment (_itemIds (market w))) ->
  getDataInfo k (commit m c w) = getDataInfo k w /\
  MarketItem.itemId (item (commit m c w) k) = MarketItem.itemId (item w k) /\
  MarketItem.nftContract (item (commit m c w) k) = MarketItem.nftContract (item w k) /\
  MarketItem.tokenId (item (commit m c w) k) = MarketItem.tokenId (item w k).
Proof.
  intros Hk. rewrite commit_eq.
  destruct (execute m c w) as [w' | e] eqn:E; [| auto].
  apply (execute_item _ _ _ _ k) in E. unfold getDataInfo.
  destruct c; rewrite E; case_decide as D; subst; simpl; auto.
  exfalso. apply Hk; reflexivity.
Qed.

(** X2.  The operator and the listing fee are those of the deployment,
    whatever transactions were run: 0.1 ether is the fee for ever. *)
Theorem operator_and_fee_fixed txs deployer b (c : Custody) :
  let w := run txs (genesis Custody deployer b c) in
  owner (market w) = deployer /\ getListingPrice w = 10 ^ 17.
Proof.
  assert (H : forall txs (w : World),
             owner (market (run txs w)) = owner (market w) /\
             listingPrice (market (run txs w)) = listingPrice (market w)).
  { clear txs. induction txs as [| [m k] txs IH]; intros w; simpl; [auto |].
    destruct (IH (commit m k w)) as [-> ->]. rewrite commit_eq.
    destruct (execute m k w) as [w' |] eqn:E; [| auto].
    apply (execute_constants _ _ _ _ E). }
  intros w. destruct (H txs (genesis Custody deployer b c)) as [Ho Hf].
  unfold getListingPrice. subst w. rewrite Ho, Hf. split; reflexivity.
Qed.

(** X3.  The event log is append-only: a run of transactions keeps the events
    that were there and adds events at the end only, at most one for each
    transaction. *)
Theorem log_append_only txs (w : World) :
  exists added,
    logs (run txs w) = logs w ++ added /\ (length added <= length txs)%nat.
Proof.
  revert w. induction txs as [| [m k] txs IH]; intros w; simpl.
  - exists []. rewrite app_nil_r. auto.
  - destruct (IH (commit m k w)) as (added & -> & Hlen). rewrite commit_eq.
    destruct (execute m k w) as [w' |] eqn:E.
    + apply execute_logs in E as (e & -> & _). exists (e :: added).
      rewrite <- app_assoc. simpl. split; [reflexivity | lia].
    + exists added. split; [reflexivity | lia].
Qed.

(** ** The counter of sold items *)

Lemma itemsSold_counts (w : World) :
  reachable w ->
  N.of_nat (length (ids_of Sold (logs w))) < 2 ^ 256 ->
  N.of_nat (length (ids_of Relisted (logs w)))
    <= N.of_nat (length (ids_of Sold (logs w))) /\
  _itemsSold (market w) =
    N.of_nat (length (ids_of Sold (logs w)))
    - N.of_nat (length (ids_of Relisted (logs w))).
Proof.
  induction 1 as [deployer b c | m c w Hr IH]; [simpl; lia |].
  rewrite commit_eq. destruct (execute m c w) as [w' |] eqn:E; [| exact IH].
  destruct c; simpl in E.
  - apply createMarketItem_Ok in E as (_ & _ & _ & Hm & Hl).
    rewrite Hl, Hm, !ids_of_app. simpl. rewrite !app_nil_r. exact IH.
  - apply createMarketSale_Ok in E as (_ & _ & _ & _ & Hm & _ & _ & Hl).
    rewrite Hl, Hm, !ids_of_app. simpl. rewrite app_nil_r, length_app. simpl.
    intros Hlt. destruct IH as [Hle Heq]; [lia |].
    split; [lia |]. unfold Counters.increment. rewrite Heq.
    rewrite N.mod_small by lia. lia.
  - apply relistMarketItem_Ok in E as (_ & _ & _ & _ & Hpos & Hm & Hl).
    rewrite Hl, Hm, !ids_of_app. simpl. rewrite app_nil_r, length_app. simpl.
    intros Hlt. destruct (IH Hlt) as [Hle Heq]. lia.
  - apply cancelListing_Ok in E as (_ & _ & _ & Hm & _ & Hl).
    rewrite Hl, Hm, !ids_of_app. simpl. rewrite !app_nil_r. exact IH.
Qed.

(** X4.  Whatever the operations run from the empty ledger (with fewer than
    2^256 sales), there were never more relists than sales, and the counter
    of sold items is their difference. *)
Theorem itemsSold_is_sales_minus_relists txs deployer b (c : Custody) :
  let w := run txs (genesis Custody deployer b c) in
  N.of_nat (length (ids_of Sold (logs w))) < 2 ^ 256 ->
  N.of_nat (length (ids_of Relisted (logs w)))
    <= N.of_nat (length (ids_of Sold (logs w))) /\
  _itemsSold (market w) =
    N.of_nat (length (ids_of Sold (logs w)))
    - N.of_nat (length (ids_of Relisted (logs w))).
Proof.
  intros w. apply itemsSold_counts. apply reachable_run. constructor.
Qed.

(** X5.  While every sale has been followed by a relist (in particular on a
    ledger without any sale), no relist is accepted: an item that its seller
    canceled cannot be listed again then, whoever calls and whatever is
    paid. *)
Theorem relist_needs_an_open_sale m v i p (w : World) :
  reachable w ->
  N.of_nat (length (ids_of Sold (logs w))) < 2 ^ 256 ->
  length (ids_of Relisted (logs w)) = length (ids_of Sold (logs w)) ->
  exists e, relistMarketItem m v i p w = Err e.
Proof.
  intros Hr Hlt Heq. destruct (itemsSold_counts w Hr Hlt) as [_ Hs].
  destruct (relistMarketItem m v i p w) as [w' | e] eqn:E; [| eauto].
  apply relistMarketItem_Ok in E as (_ & _ & _ & _ & Hpos & _). lia.
Qed.

(** ** The collection of an account: [fetchMyNFTs] *)

Lemma count_owned_filter (w : World) (sender : address) (indices : list uint256)
    (c : uint256) :
  count_owned Custody w sender indices c =
    c + N.of_nat (length (List.filter
          (fun i => MarketItem.owner (item w (i + 1)) =? sender) indices)).
Proof.
  revert c. induction indices as [| i indices IH]; intros c; simpl; [lia |].
  destruct (MarketItem.owner (item w (i + 1)) =? sender); simpl; rewrite IH; lia.
Qed.

Lemma fill_owned_filter (w : World) (sender : address) (indices : list uint256)
    (pre : list MarketItem.t) :
  let found :=
    map (fun i => item w (MarketItem.itemId (item w (i + 1))))
      (List.filter (fun i => MarketItem.owner (item w (i + 1)) =? sender) indices) in
  fill_owned Custody w sender indices
    (pre ++ replicate (length found) MarketItem.zero) (N.of_nat (length pre))
  = Ok (pre ++ found).
Proof.
  revert pre. induction indices as [| i indices IH]; intros pre; simpl.
  - rewrite app_nil_r. reflexivity.
  - destruct (MarketItem.owner (item w (i + 1)) =? sender) eqn:E; simpl; [| apply IH].
    rewrite length_app. simpl.
    match goal with
    | |- context [N.of_nat (length pre) <? ?n] =>
        destruct (N.ltb_spec (N.of_nat (length pre)) n) as [_ | Hge]; [| lia]
    end.
    simpl. rewrite Nat2N.id.
    replace (length pre) with (length pre + 0)%nat at 1 by lia.
    rewrite insert_app_r. simpl.
    set (x := item w (MarketItem.itemId (item w (i + 1)))).
    replace (N.of_nat (length pre) + 1) with (N.of_nat (length (pre ++ [x])))
      by (rewrite length_app; simpl; lia).
    rewrite (cons_middle x pre (replicate _ _)), app_assoc.
    rewrite (cons_middle x pre (map _ _)), app_assoc.
    apply IH.
Qed.

Lemma fetchMyNFTs_filter m (w : World) :
  fetchMyNFTs m w =
    Ok (map (fun i => item w (MarketItem.itemId (item w (i + 1))))
          (List.filter (fun i => MarketItem.owner (item w (i + 1)) =? msg_sender m)
             (for_below (_itemIds (market w))))).
Proof.
  unfold fetchMyNFTs, Counters.current.
  rewrite count_owned_filter, N.add_0_l, Nat2N.id.
  rewrite <- (length_map (fun i => item w (MarketItem.itemId (item w (i + 1))))).
  apply (fill_owned_filter w (msg_sender m) _ []).
Qed.

(** X6.  In every world, reachable or not, [fetchMyNFTs] returns: its second
    pass never writes outside the array the first pass sized, and fills it.
    What it returns is, for each [i] from 1 to the counter whose record has
    the caller as owner, in this order, the record stored at the [itemId]
    field of that record. *)
Theorem fetchMyNFTs_returns m (w : World) :
  exists items,
    fetchMyNFTs m w = Ok items /\
    N.of_nat (length items) =
      count_owned Custody w (msg_sender m) (for_below (_itemIds (market w))) 0 /\
    items =
      map (fun i => item w (MarketItem.itemId (item w (i + 1))))
        (List.filter (fun i => MarketItem.owner (item w (i + 1)) =? msg_sender m)
           (for_below (_itemIds (market w)))).
Proof.
  eexists. split; [apply fetchMyNFTs_filter |]. split; [| reflexivity].
  rewrite count_owned_filter, length_map. lia.
Qed.

Lemma for_below_stored (w : World) (i : uint256) :
  In i (for_below (_itemIds (market w))) <-> stored w (i + 1).
Proof.
  unfold for_below, stored. rewrite in_map_iff. split.
  - intros (k & <- & Hk). apply in_seq in Hk. lia.
  - intros H. exists (N.to_nat i). rewrite N2Nat.id, in_seq. split; [reflexivity | lia].
Qed.

Lemma StronglySorted_shift (l : list N) :
  StronglySorted N.lt l -> StronglySorted N.lt (map (fun i => i + 1) l).
Proof.
  induction 1 as [| x l Hl IH Hx]; simpl; constructor; [exact IH |].
  rewrite List.Forall_forall in Hx |- *. intros y Hy.
  apply in_map_iff in Hy as (z & <- & Hz). specialize (Hx z Hz). lia.
Qed.

Lemma collection (m : Msg) (w : World) :
  ledger_inv w ->
  exists items,
    fetchMyNFTs m w = Ok items /\
    (forall it, it ∈ items <->
       exists i, stored w i /\ it = item w i /\ MarketItem.owner it = msg_sender m) /\
    StronglySorted N.lt (map MarketItem.itemId items).
Proof.
  intros Hw.
  assert (Hid : forall i, In i (for_below (_itemIds (market w))) ->
            MarketItem.itemId (item w (i + 1)) = i + 1).
  { intros i Hi. apply for_below_stored in Hi. apply (unsold_stored _ w _ Hw Hi). }
  eexists. split; [apply fetchMyNFTs_filter |]. split.
  - intros it. rewrite list_elem_of_In, in_map_iff. split.
    + intros (i & <- & Hi). apply List.filter_In in Hi as [Hi Ho].
      rewrite (Hid i Hi). apply N.eqb_eq in Ho. apply for_below_stored in Hi. eauto.
    + intros (j & Hj & -> & Ho). exists (j - 1).
      assert (Hj1 : j - 1 + 1 = j) by (destruct Hj; lia).
      assert (Hin : In (j - 1) (for_below (_itemIds (market w))))
        by (apply for_below_stored; rewrite Hj1; exact Hj).
      rewrite (Hid _ Hin), Hj1. split; [reflexivity |].
      apply List.filter_In. split; [exact Hin |]. rewrite Hj1. apply N.eqb_eq, Ho.
  - rewrite map_map.
    rewrite (map_ext_in _ (fun i => i + 1)).
    + apply StronglySorted_shift, StronglySorted_filter.
      unfold for_below. apply StronglySorted_range.
    + intros i Hi. apply List.filter_In in Hi as [Hi _].
      rewrite (Hid i Hi).
      apply for_below_stored in Hi. apply (unsold_stored _ w _ Hw Hi).
Qed.

(** X7.  In a reachable world [fetchMyNFTs] returns exactly the stored items
    whose owner is the caller, in ascending order of identifier. *)
Theorem fetchMyNFTs_exact m (w : World) :
  reachable w ->
  exists items,
    fetchMyNFTs m w = Ok items /\
    (forall it, it ∈ items <->
       exists i, stored w i /\ it = item w i /\ MarketItem.owner it = msg_sender m) /\
    StronglySorted N.lt (map MarketItem.itemId items).
Proof. intros Hr. apply reachable_inv in Hr. apply collection, Hr. Qed.

(** X8.  In a reachable world every stored item shows in exactly one of the
    two views: among the active listings while its owner is the none
    sentinel, in the collection of its owner, and not among the active
    listings, otherwise. *)
Theorem stored_item_in_one_view m (w : World) (i : uint256) :
  reachable w -> _itemIds (market w) <> max_uint256 -> stored w i ->
  msg_sender m <> address0 ->
  exists active mine,
    fetchMarketItems w = Ok active /\ fetchMyNFTs m w = Ok mine /\
    (MarketItem.owner (item w i) = address0 ->
       item w i ∈ active /\ item w i ∉ mine) /\
    (MarketItem.owner (item w i) = msg_sender m ->
       item w i ∈ mine /\ item w i ∉ active) /\
    (forall it, it ∈ active -> it ∉ mine).
Proof.
  intros Hr Hmax Hs Hm0. apply reachable_inv in Hr.
  destruct (active_listing _ w Hr Hmax) as (active & Ha & _ & Hina & _).
  destruct (collection m w Hr) as (mine & Hm & Hinm & _).
  exists active, mine. split; [exact Ha |]. split; [exact Hm |].
  assert (Hdis : forall it, it ∈ active -> it ∉ mine).
  { intros it H1 H2. apply Hina in H1 as (_ & _ & _ & Ho1).
    apply Hinm in H2 as (_ & _ & _ & Ho2). congruence. }
  split; [| split; [| exact Hdis]].
  - intros Ho. assert (Hin : item w i ∈ active) by (apply Hina; eauto).
    split; [exact Hin | apply Hdis, Hin].
  - intros Ho. assert (Hin : item w i ∈ mine) by (apply Hinm; eauto).
    split; [exact Hin |]. intros Hact. exact (Hdis _ Hact Hin).
Qed.

(** ** Purchase and the views *)

(** X9.  After the purchase of a stored item in a reachable world, the
    ownership query answers true for the buyer and for nobody else, the item
    is in the collection of the buyer, and its data info is what it was. *)
Theorem purchase_gives_ownership m v nft i (w w' : World) :
  reachable w -> stored w i ->
  createMarketSale m v nft i w = Ok w' ->
  (forall a, verifyOwnership i a w' = true <-> a = msg_sender m) /\
  (exists mine, fetchMyNFTs m w' = Ok mine /\ item w' i ∈ mine) /\
  getDataInfo i w' = getDataInfo i w.
Proof.
  intros Hr Hs E. apply reachable_inv in Hr.
  assert (Hinv' : ledger_inv w')
    by (eapply ledger_inv_sale; [exact Hr | exact E]).
  pose proof (execute_item m (CreateMarketSale v nft i) w w' i E) as Hit.
  simpl in Hit. rewrite decide_True in Hit by reflexivity.
  apply createMarketSale_Ok in E as (_ & _ & _ & _ & Hm & _).
  assert (Ho : MarketItem.owner (item w' i) = msg_sender m) by (rewrite Hit; reflexivity).
  split; [| split].
  - intros a. unfold verifyOwnership. rewrite Ho, N.eqb_eq. split; congruence.
  - destruct (collection m w' Hinv') as (mine & Hf & Hin & _).
    exists mine. split; [exact Hf |]. apply Hin. exists i.
    split; [| auto]. unfold stored. rewrite Hm. exact Hs.
  - unfold getDataInfo. rewrite Hit. reflexivity.
Qed.

(** ** Rejections *)

(** X10.  A purchase whose payment differs from the stored price is rejected
    with the price mismatch, for every item and caller (who holds the
    payment); the world, and with it the owner of the item and the log, stay
    as they were. *)
Theorem purchase_price_mismatch m v nft i (w : World) :
  v <= balance_of (balances w) (msg_sender m) ->
  v <> MarketItem.price (item w i) ->
  createMarketSale m v nft i w = Err PriceMismatch /\
  commit m (CreateMarketSale v nft i) w = w.
Proof.
  intros Hf Hv.
  assert (E : createMarketSale m v nft i w = Err PriceMismatch).
  { unfold createMarketSale. rewrite (payable_pass _ _ _ _ _ Hf).
    apply N.eqb_neq in Hv. unfold item in *. simpl. rewrite Hv. reflexivity. }
  split; [exact E |]. rewrite commit_eq. simpl. rewrite E. reflexivity.
Qed.

(** X11.  A create with the price zero is rejected as an invalid price, and a
    create with a positive price and a payment that is not the listing fee as
    a fee mismatch, before the asset contract is called (the caller holding
    the payment); no identifier is consumed. *)
Theorem create_rejections m v nft tok p h lic url (w : World) :
  v <= balance_of (balances w) (msg_sender m) ->
  (p = 0 -> createMarketItem m v nft tok p h lic url w = Err InvalidPrice) /\
  (0 < p -> v <> listingPrice (market w) ->
     createMarketItem m v nft tok p h lic url w = Err FeeMismatch) /\
  (p = 0 \/ v <> listingPrice (market w) ->
     _itemIds (market (commit m (CreateMarketItem v nft tok p h lic url) w))
       = _itemIds (market w)).
Proof.
  intros Hf.
  assert (H0 : p = 0 -> createMarketItem m v nft tok p h lic url w = Err InvalidPrice).
  { intros ->. unfold createMarketItem. rewrite (payable_pass _ _ _ _ _ Hf).
    reflexivity. }
  assert (H1 : 0 < p -> v <> listingPrice (market w) ->
               createMarketItem m v nft tok p h lic url w = Err FeeMismatch).
  { intros Hp Hv. unfold createMarketItem. rewrite (payable_pass _ _ _ _ _ Hf).
    simpl. apply N.ltb_lt in Hp. rewrite Hp. simpl.
    apply N.eqb_neq in Hv. rewrite Hv. reflexivity. }
  split; [exact H0 |]. split; [exact H1 |].
  intros Hor. rewrite commit_eq. simpl.
  destruct (N.eq_dec p 0) as [Hp | Hp].
  - rewrite (H0 Hp). reflexivity.
  - destruct Hor as [Hp0 | Hv]; [contradiction |].
    rewrite (H1 ltac:(lia) Hv). reflexivity.
Qed.

(** X12.  Authorization.  A relist by a caller who is not the owner of the item
    is rejected with [NotOwner], whatever the price and the payment they hold:
    so is every relist of an item that is listed, by any account.  A cancel
    of a listed item by a caller who is not its seller is rejected with
    [NotSeller]. *)
Theorem relist_and_cancel_authorization m v i p (w : World) :
  (v <= balance_of (balances w) (msg_sender m) ->
   MarketItem.owner (item w i) <> msg_sender m ->
   relistMarketItem m v i p w = Err NotOwner) /\
  (MarketItem.owner (item w i) = address0 ->
   MarketItem.seller (item w i) <> msg_sender m ->
   cancelListing m i w = Err NotSeller).
Proof.
  split.
  - intros Hf Ho. unfold relistMarketItem. rewrite (payable_pass _ _ _ _ _ Hf).
    apply N.eqb_neq in Ho. unfold item in *. simpl. rewrite Ho. reflexivity.
  - intros Ho Hs. unfold cancelListing. rewrite Ho. simpl.
    apply N.eqb_neq in Hs. rewrite Hs. reflexivity.
Qed.

(** ** Create, relist and the active listings *)

Lemma createMarketItem_funds m v nft tok p h lic url (w w' : World) :
  createMarketItem m v nft tok p h lic url w = Ok w' ->
  v <= balance_of (balances w) (msg_sender m) /\
  balances w' = move (msg_sender m) this v (balances w).
Proof.
  unfold createMarketItem. intros H. peel H.
  apply payable_Ok in E as [Hv ->]. simpl in *.
  apply IERC721_transferFrom_Ok in E0 as (_ & c & _ & ->).
  injection H as <-. simpl. auto.
Qed.

Lemma relistMarketItem_funds m v i p (w w' : World) :
  relistMarketItem m v i p w = Ok w' ->
  v <= balance_of (balances w) (msg_sender m) /\
  balances w' = move (msg_sender m) this v (balances w).
Proof.
  unfold relistMarketItem. intros H. peel H.
  apply payable_Ok in E as [Hv ->]. simpl in *.
  apply IERC721_transferFrom_Ok in E0 as (_ & c & _ & ->). simpl in *.
  unfold Counters.decrement in E1. peel E1. injection E1 as <-.
  injection H as <-. simpl. auto.
Qed.

(** X13.  In a reachable world (the counter not at the top of its range), a
    create by an account other than the market, with a positive price and
    the listing fee as payment that the caller holds, is accepted as soon as
    the asset contract carries out the transfer to the market.  The item
    gets the next identifier, its record holds the arguments of the call with
    the caller as seller and the none sentinel as owner, [getDataInfo] reads
    back the data passed, the item is among the active listings, the fee has
    moved from the caller to the market, and a Created event is appended. *)
Theorem create_lists_item m v nft tok p h lic url c' (w : World) :
  let j := _itemIds (market w) + 1 in
  reachable w ->
  j < max_uint256 ->
  v <= balance_of (balances w) (msg_sender m) ->
  0 < p -> v = listingPrice (market w) ->
  nft <> address0 ->
  transferFrom nft this (msg_sender m) this tok (custody w) = Some c' ->
  msg_sender m <> this ->
  exists w',
    createMarketItem m v nft tok p h lic url w = Ok w' /\
    item w' j = MarketItem.mk j nft tok (msg_sender m) address0 p h lic url /\
    getDataInfo j w' = (h, lic, url) /\
    (exists active, fetchMarketItems w' = Ok active /\ item w' j ∈ active) /\
    balance_of (balances w') this = balance_of (balances w) this + v /\
    balance_of (balances w') (msg_sender m)
      = balance_of (balances w) (msg_sender m) - v /\
    logs w' =
      logs w ++ [MarketItemCreated j nft tok (msg_sender m) address0 p h lic url].
Proof.
  intros j Hr Hj Hf Hp Hv Hnft Hc Hms.
  assert (Hinc : Counters.increment (_itemIds (market w)) = j).
  { unfold Counters.increment, max_uint256 in *. apply N.mod_small. lia. }
  destruct (createMarketItem m v nft tok p h lic url w) as [w' | e] eqn:E.
  - assert (Hinv' : ledger_inv w')
      by (eapply ledger_inv_create; [eapply reachable_inv; exact Hr | exact E]).
    pose proof (execute_item m (CreateMarketItem v nft tok p h lic url) w w' j E)
      as Hit. simpl in Hit. rewrite Hinc, decide_True in Hit by reflexivity.
    pose proof (createMarketItem_funds _ _ _ _ _ _ _ _ _ _ E) as [_ Hb].
    apply createMarketItem_Ok in E as (_ & _ & _ & Hm & Hl).
    rewrite Hinc in Hm, Hl.
    exists w'. split; [reflexivity |]. split; [exact Hit |].
    split; [unfold getDataInfo; rewrite Hit; reflexivity |].
    split; [| split; [| split; [| exact Hl]]].
    + assert (Hmax : _itemIds (market w') <> max_uint256)
        by (rewrite Hm; simpl; lia).
      destruct (active_listing _ w' Hinv' Hmax) as (active & Ha & _ & Hin & _).
      exists active. split; [exact Ha |]. apply Hin. exists j.
      split; [| split; [reflexivity | rewrite Hit; reflexivity]].
      unfold stored. rewrite Hm. simpl. lia.
    + rewrite Hb, balance_of_move by exact Hf.
      repeat case_decide; try congruence; lia.
    + rewrite Hb, balance_of_move by exact Hf.
      repeat case_decide; try congruence; lia.
  - exfalso. revert E. unfold createMarketItem.
    rewrite (payable_pass _ _ _ _ _ Hf). simpl.
    apply N.ltb_lt in Hp. rewrite Hp. simpl.
    rewrite Hv, N.eqb_refl. simpl.
    erewrite IERC721_transferFrom_pass; simpl; [discriminate | exact Hnft | exact Hc].
Qed.

(** X14.  In a reachable world, a relist of a stored item by its owner, with a
    positive price and the listing fee as payment that the caller holds, is
    accepted as soon as the asset contract of the item carries out the
    transfer to the market and the counter of sold items is positive.  The
    item is then among the active listings again, with the caller as seller
    and the new price, and its asset and data as before. *)
Theorem relist_lists_item m v i p c' (w : World) :
  reachable w -> _itemIds (market w) <> max_uint256 -> stored w i ->
  v <= balance_of (balances w) (msg_sender m) ->
  MarketItem.owner (item w i) = msg_sender m ->
  0 < p -> v = listingPrice (market w) ->
  transferFrom (MarketItem.nftContract (item w i)) this (msg_sender m) this
    (MarketItem.tokenId (item w i)) (custody w) = Some c' ->
  0 < _itemsSold (market w) ->
  exists w',
    relistMarketItem m v i p w = Ok w' /\
    (exists active, fetchMarketItems w' = Ok active /\ item w' i ∈ active) /\
    MarketItem.seller (item w' i) = msg_sender m /\
    MarketItem.price (item w' i) = p /\
    MarketItem.nftContract (item w' i) = MarketItem.nftContract (item w i) /\
    MarketItem.tokenId (item w' i) = MarketItem.tokenId (item w i) /\
    getDataInfo i w' = getDataInfo i w.
Proof.
  intros Hr Hmax Hs Hf Ho Hp Hv Hc Hsold. apply reachable_inv in Hr.
  destruct (inv_issued _ _ Hr i (stored_issued _ w i (inv_numbered _ _ Hr) Hs))
    as (_ & _ & Hnft).
  destruct (relistMarketItem m v i p w) as [w' | e] eqn:E.
  - assert (Hinv' : ledger_inv w')
      by (eapply ledger_inv_relist; [exact Hr | exact E]).
    pose proof (execute_item m (RelistMarketItem v i p) w w' i E) as Hit.
    simpl in Hit. rewrite decide_True in Hit by reflexivity.
    apply relistMarketItem_Ok in E as (_ & _ & _ & _ & _ & Hm & _).
    exists w'. split; [reflexivity |].
    split; [| rewrite Hit; unfold getDataInfo; rewrite Hit; simpl; auto 10].
    assert (Hmax' : _itemIds (market w') <> max_uint256) by (rewrite Hm; exact Hmax).
    destruct (active_listing _ w' Hinv' Hmax') as (active & Ha & _ & Hin & _).
    exists active. split; [exact Ha |]. apply Hin. exists i.
    split; [| split; [reflexivity | rewrite Hit; reflexivity]].
    unfold stored. rewrite Hm. exact Hs.
  - exfalso. revert E. unfold relistMarketItem.
    rewrite (payable_pass _ _ _ _ _ Hf). unfold item in *. simpl.
    rewrite Ho, N.eqb_refl. simpl.
    apply N.ltb_lt in Hp. rewrite Hp. simpl.
    rewrite Hv, N.eqb_refl. simpl.
    erewrite IERC721_transferFrom_pass; simpl; [| exact Hnft | exact Hc].
    unfold Counters.decrement. apply N.ltb_lt in Hsold. rewrite Hsold. simpl.
    discriminate.
Qed.

(** X15.  A cancel refunds nothing.  When an account other than the market
    creates an item and then cancels it, the account ends with the listing
    fee less than it had and the market with the listing fee more, the item
    having the account as owner. *)
Theorem cancel_does_not_refund m m' v nft tok p h lic url (w w1 w2 : World) :
  createMarketItem m v nft tok p h lic url w = Ok w1 ->
  cancelListing m' (_itemIds (market w1)) w1 = Ok w2 ->
  msg_sender m <> this ->
  balance_of (balances w2) (msg_sender m)
    = balance_of (balances w) (msg_sender m) - listingPrice (market w) /\
  balance_of (balances w2) this
    = balance_of (balances w) this + listingPrice (market w) /\
  msg_sender m' = msg_sender m /\
  MarketItem.owner (item w2 (_itemIds (market w1))) = msg_sender m.
Proof.
  intros E1 E2 Hms.
  pose proof (createMarketItem_funds _ _ _ _ _ _ _ _ _ _ E1) as [Hf Hb].
  pose proof (execute_item m (CreateMarketItem v nft tok p h lic url) w w1
                (_itemIds (market w1)) E1) as Hit1. simpl in Hit1.
  pose proof (execute_item m' (CancelListing (_itemIds (market w1))) w1 w2
                (_itemIds (market w1)) E2) as Hit2. simpl in Hit2.
  rewrite decide_True in Hit2 by reflexivity.
  apply createMarketItem_Ok in E1 as (_ & Hv & _ & Hm1 & _).
  assert (Hj : _itemIds (market w1) = Counters.increment (_itemIds (market w)))
    by (rewrite Hm1; reflexivity).
  rewrite <- Hj, decide_True in Hit1 by reflexivity.
  apply cancelListing_Ok in E2 as (_ & Hsel & _ & _ & Hb2 & _).
  rewrite Hit1 in Hsel. simpl in Hsel.
  rewrite Hb2, Hb, !balance_of_move by exact Hf. subst v.
  split; [| split; [| split; [auto |]]].
  - repeat case_decide; try congruence; lia.
  - repeat case_decide; try congruence; lia.
  - rewrite Hit2. simpl. auto.
Qed.

(** ** The records and the log agree *)

(** X16.  In a reachable world, each item that was created has in the log a
    Created event with its identifier that carries the asset contract, the
    asset id, the data hash, the license type and the data locator its record
    holds now: purchases, relists and cancels do not touch them. *)
Theorem record_matches_created_event (w : World) (i : uint256) :
  reachable w -> i ∈ issued (logs w) ->
  exists s p,
    MarketItemCreated i (MarketItem.nftContract (item w i))
      (MarketItem.tokenId (item w i)) s address0 p
      (MarketItem.dataHash (item w i)) (MarketItem.licenseType (item w i))
      (MarketItem.encryptedDataUrl (item w i)) ∈ logs w.
Proof.
  intros Hr. revert i. induction Hr as [deployer b c | m c w Hr IH]; intros i Hi.
  - inversion Hi.
  - rewrite commit_eq in Hi |- *.
    destruct (execute m c w) as [w' |] eqn:E; [| apply IH, Hi].
    pose proof (execute_item m c w w' i E) as Hit.
    destruct c; simpl in E.
    + apply createMarketItem_Ok in E as (_ & _ & _ & _ & Hl).
      rewrite Hl. unfold issued in Hi. rewrite Hl, ids_of_app in Hi. simpl in Hi.
      rewrite Hit. case_decide as D.
      * subst i. simpl. do 2 eexists. apply elem_of_app. right. constructor.
      * apply elem_of_app in Hi as [Hi | Hi];
          [| apply list_elem_of_singleton in Hi; simpl in Hi; congruence].
        destruct (IH i Hi) as (s & q & Hin). exists s, q.
        apply elem_of_app. left. exact Hin.
    + apply createMarketSale_Ok in E as (_ & _ & _ & _ & _ & _ & _ & Hl).
      rewrite Hl. unfold issued in Hi. rewrite Hl, ids_of_app in Hi. simpl in Hi.
      rewrite app_nil_r in Hi. destruct (IH i Hi) as (s & q & Hin).
      rewrite Hit. exists s, q. apply elem_of_app. left.
      case_decide as D; [subst; simpl |]; exact Hin.
    + apply relistMarketItem_Ok in E as (_ & _ & _ & _ & _ & _ & Hl).
      rewrite Hl. unfold issued in Hi. rewrite Hl, ids_of_app in Hi. simpl in Hi.
      rewrite app_nil_r in Hi. destruct (IH i Hi) as (s & q & Hin).
      rewrite Hit. exists s, q. apply elem_of_app. left.
      case_decide as D; [subst; simpl |]; exact Hin.
    + apply cancelListing_Ok in E as (_ & _ & _ & _ & _ & Hl).
      rewrite Hl. unfold issued in Hi. rewrite Hl, ids_of_app in Hi. simpl in Hi.
      rewrite app_nil_r in Hi. destruct (IH i Hi) as (s & q & Hin).
      rewrite Hit. exists s, q. apply elem_of_app. left.
      case_decide as D; [subst; simpl |]; exact Hin.
Qed.

(** ** Funds *)

Lemma total_supply_insert (b : gmap N N) (a : address) (v : N) :
  total_supply (<[a := v]> b) + balance_of b a = total_supply b + v.
Proof.
  unfold total_supply, balance_of. destruct (b !! a) as [x |] eqn:E; simpl.
  - rewrite (map_fold_delete_L _ _ a x b); [| intros; lia | exact E].
    rewrite <- (insert_delete_eq b a v).
    rewrite map_fold_insert_L; [lia | intros; lia | apply lookup_delete_eq].
  - rewrite map_fold_insert_L; [lia | intros; lia | exact E].
Qed.

Lemma total_supply_move (b : gmap N N) (from to : address) (v : N) :
  v <= balance_of b from -> total_supply (move from to v b) = total_supply b.
Proof.
  intros Hv. unfold move.
  pose proof (total_supply_insert b from (balance_of b from - v)) as H1.
  pose proof (total_supply_insert (<[from := balance_of b from - v]> b) to
                (balance_of (<[from := balance_of b from - v]> b) to + v)) as H2.
  lia.
Qed.

Lemma execute_total_supply m c (w w' : World) :
  execute m c w = Ok w' ->
  total_supply (balances w') = total_supply (balances w).
Proof.
  intros H. destruct c; simpl in H.
  - apply createMarketItem_funds in H as [Hv ->]. apply total_supply_move, Hv.
  - apply createMarketSale_Ok in H as (_ & Hv & _ & _ & _ & -> & Hfee & _).
    rewrite !total_supply_move; [reflexivity | exact Hv | | exact Hfee].
    rewrite balance_of_move by exact Hv. repeat case_decide; subst; lia.
  - apply relistMarketItem_funds in H as [Hv ->]. apply total_supply_move, Hv.
  - apply cancelListing_Ok in H as (_ & _ & _ & _ & -> & _). reflexivity.
Qed.

(** X17.  The ledger moves native currency between accounts and neither creates
    nor destroys any: the sum of all balances is the same after any run of
    transactions. *)
Theorem funds_conserved txs (w : World) :
  total_supply (balances (run txs w)) = total_supply (balances w).
Proof.
  revert w. induction txs as [| [m k] txs IH]; intros w; simpl; [reflexivity |].
  rewrite IH, commit_eq. destruct (execute m k w) as [w' |] eqn:E; [| reflexivity].
  apply (execute_total_supply _ _ _ _ E).
Qed.

End Ledger.

(** * Properties of the client-side helpers *)

(** ** Strings *)

Lemma append_cons (a : ascii) (s t : string) :
  (String a s ++ t)%string = String a (s ++ t)%string.
Proof. reflexivity. Qed.

Lemma append_nil (t : string) : (EmptyString ++ t)%string = t.
Proof. reflexivity. Qed.

Lemma prefix_drop (p s : string) :
  String.prefix p s = true -> s = (p ++ string_drop (String.length p) s)%string.
Proof.
  revert s. induction p as [| a p IH]; intros s H; [reflexivity |].
  destruct s as [| b s]; simpl in H; [discriminate |].
  destruct (Ascii.ascii_dec a b) as [-> | _]; [| discriminate].
  simpl. rewrite append_cons. f_equal. apply IH, H.
Qed.

Lemma prefix_app (p s : string) : String.prefix p (p ++ s) = true.
Proof.
  induction p as [| a p IH]; [destruct s; reflexivity |].
  rewrite append_cons. simpl.
  destruct (Ascii.ascii_dec a a); [exact IH | congruence].
Qed.

Lemma string_drop_app (p s : string) : string_drop (String.length p) (p ++ s) = s.
Proof.
  induction p as [| a p IH]; [reflexivity |]. rewrite append_cons. exact IH.
Qed.

Lemma replace_first_prefix (pattern replacement s : string) :
  String.prefix pattern s = true ->
  replace_first pattern replacement s
    = (replacement ++ string_drop (String.length pattern) s)%string.
Proof. intros H. destruct s; cbn [replace_first]; rewrite H; reflexivity. Qed.

Lemma length_append (s1 s2 : string) :
  String.length (s1 ++ s2) = (String.length s1 + String.length s2)%nat.
Proof.
  induction s1 as [| a s1 IH]; [reflexivity |].
  rewrite append_cons. simpl. rewrite IH. reflexivity.
Qed.

Lemma length_string_repeat (c : ascii) (n : nat) : String.length (string_repeat c n) = n.
Proof. induction n as [| n IH]; simpl; [reflexivity | rewrite IH; reflexivity]. Qed.

(** ** [convert_src] *)

(** X18.  [convert_src] rewrites an [ipfs://] locator into the gateway address
    of the same content and returns any other non-empty string as it is;
    [null] and the empty string give [null]. *)
Theorem convert_src_cases (s cid : string) :
  convert_src (Some ("ipfs://" ++ cid)%string) = Some (gateway ++ cid)%string /\
  (s <> EmptyString -> String.prefix "ipfs://" s = false ->
     convert_src (Some s) = Some s) /\
  convert_src None = None /\ convert_src (Some EmptyString) = None.
Proof.
  split; [| split; [| split; reflexivity]].
  - change ("ipfs://" ++ cid)%string
      with (String "i" ("pfs://" ++ cid)%string).
    unfold convert_src.
    change (String "i" ("pfs://" ++ cid)%string) with ("ipfs://" ++ cid)%string.
    rewrite prefix_app, replace_first_prefix by apply prefix_app.
    rewrite (string_drop_app "ipfs://" cid). reflexivity.
  - intros Hs Hp. destruct s; [congruence |]. unfold convert_src. rewrite Hp.
    reflexivity.
Qed.

(** X19.  What [convert_src] returns is never an [ipfs://] locator and never
    the empty string, and converting it again changes nothing. *)
Theorem convert_src_idempotent (x : option string) :
  convert_src (convert_src x) = convert_src x /\
  (forall s, convert_src x = Some s ->
     s <> EmptyString /\ String.prefix "ipfs://" s = false).
Proof.
  assert (H : forall s, convert_src x = Some s ->
            s <> EmptyString /\ String.prefix "ipfs://" s = false).
  { intros s Hs. destruct x as [[| c x] |]; unfold convert_src in Hs;
      try discriminate.
    destruct (String.prefix "ipfs://" (String c x)) eqn:E.
    - rewrite replace_first_prefix in Hs by exact E. injection Hs as <-.
      split; [discriminate | reflexivity].
    - injection Hs as <-. split; [discriminate | exact E]. }
  split; [| exact H].
  destruct (convert_src x) as [s |] eqn:E; [| reflexivity].
  destruct (H s eq_refl) as [Hne Hp].
  destruct s; [congruence |]. unfold convert_src. rewrite Hp. reflexivity.
Qed.

(** ** [extractCidFromUrl] *)

Lemma take_alnum_idem (s : string) : take_alnum (take_alnum s) = take_alnum s.
Proof.
  induction s as [| c s IH]; [reflexivity |]. cbn [take_alnum].
  destruct (is_alnum c) eqn:E; [| reflexivity].
  cbn [take_alnum]. rewrite E, IH. reflexivity.
Qed.

Lemma match_ipfs_alnum (s cid : string) :
  match_ipfs s = Some cid -> cid <> EmptyString /\ take_alnum cid = cid.
Proof.
  induction s as [| c s IH]; cbn [match_ipfs]; [discriminate |].
  destruct (String.prefix "ipfs/" (String c s)); [| exact IH].
  destruct (take_alnum (string_drop 5 (String c s))) as [| a r] eqn:E; [exact IH |].
  intros H. injection H as <-. split; [discriminate |].
  rewrite <- E. apply take_alnum_idem.
Qed.

(** X20.  What [extractCidFromUrl] returns, when it is not [null], is a
    non-empty string of letters and digits. *)
Theorem extractCidFromUrl_alnum (url : option string) (cid : string) :
  extractCidFromUrl url = Some cid ->
  cid <> EmptyString /\ take_alnum cid = cid.
Proof.
  destruct url as [[| c s] |]; unfold extractCidFromUrl; try discriminate.
  apply match_ipfs_alnum.
Qed.

(** A host name without slash that does not end in "ipfs" cannot start a
    match. *)
Lemma no_match_in_host (host rest : string) :
  (forall c, In c (list_ascii_of_string host) -> c <> "/"%char) ->
  (forall pre, host <> (pre ++ "ipfs")%string) ->
  host <> EmptyString ->
  String.prefix "ipfs/" (host ++ String "/" rest) = false.
Proof.
  intros Hslash Hend Hne.
  destruct (String.prefix "ipfs/" (host ++ String "/" rest)) eqn:E; [| reflexivity].
  exfalso. apply prefix_drop in E.
  destruct host as [| c0 [| c1 [| c2 [| c3 [| c4 host]]]]];
    rewrite ?append_cons, ?append_nil in E; try congruence.
  - injection E as -> -> -> ->. apply (Hend EmptyString). reflexivity.
  - injection E. intros. apply (Hslash c4); [simpl; auto 10 | congruence].
Qed.

Lemma match_ipfs_after_host (host cid : string) :
  (forall c, In c (list_ascii_of_string host) -> c <> "/"%char) ->
  (forall pre, host <> (pre ++ "ipfs")%string) ->
  cid <> EmptyString -> take_alnum cid = cid ->
  match_ipfs (host ++ "/ipfs/" ++ cid) = Some cid.
Proof.
  intros Hslash Hend Hne Hal.
  induction host as [| c host IH].
  - rewrite append_nil.
    change ("/ipfs/" ++ cid)%string with (String "/" ("ipfs/" ++ cid)%string).
    cbn [match_ipfs].
    replace (String.prefix "ipfs/" (String "/" ("ipfs/" ++ cid)%string)) with false
      by reflexivity.
    change ("ipfs/" ++ cid)%string with (String "i" ("pfs/" ++ cid)%string).
    cbn [match_ipfs].
    change (String "i" ("pfs/" ++ cid)%string) with ("ipfs/" ++ cid)%string.
    rewrite prefix_app.
    change 5%nat with (String.length "ipfs/").
    rewrite (string_drop_app "ipfs/" cid), Hal.
    destruct cid; [congruence | reflexivity].
  - rewrite append_cons. cbn [match_ipfs]. rewrite <- append_cons.
    change ("/ipfs/" ++ cid)%string with (String "/" ("ipfs/" ++ cid)%string).
    rewrite (no_match_in_host (String c host) ("ipfs/" ++ cid) Hslash Hend)
      by discriminate.
    apply IH.
    + intros a Ha. apply Hslash. simpl. auto.
    + intros pre Hpre. apply (Hend (String c pre)). rewrite Hpre. reflexivity.
Qed.

(** X21.  Round trip with the locators the pages build.  From
    ["https://" + host + "/ipfs/" + cid], where the host name has no slash
    and does not end in "ipfs" and the content identifier is a non-empty
    string of letters and digits, [extractCidFromUrl] gives back the content
    identifier. *)
Theorem extractCidFromUrl_of_gateway_url (host cid : string) :
  (forall c, In c (list_ascii_of_string host) -> c <> "/"%char) ->
  (forall pre, host <> (pre ++ "ipfs")%string) ->
  cid <> EmptyString -> take_alnum cid = cid ->
  extractCidFromUrl (Some ("https://" ++ host ++ "/ipfs/" ++ cid)%string) = Some cid.
Proof.
  intros Hslash Hend Hne Hal.
  pose proof (match_ipfs_after_host host cid Hslash Hend Hne Hal) as H.
  change ("https://" ++ host ++ "/ipfs/" ++ cid)%string
    with (String "h" (String "t" (String "t" (String "p" (String "s" (String ":"
           (String "/" (String "/" (host ++ "/ipfs/" ++ cid)%string)))))))).
  unfold extractCidFromUrl. cbn [match_ipfs].
  repeat match goal with
  | |- context [String.prefix "ipfs/" (String ?c ?s)] =>
      lazymatch c with
      | "h"%char => idtac | "t"%char => idtac | "p"%char => idtac
      | "s"%char => idtac | ":"%char => idtac | "/"%char => idtac
      end;
      replace (String.prefix "ipfs/" (String c s)) with false by reflexivity
  end.
  exact H.
Qed.

(** ** The [bytes32] argument of a create *)

Lemma padStart_long (n : nat) (c : ascii) (s : string) :
  (n <= String.length s)%nat -> padStart n c s = s.
Proof.
  intros H. unfold padStart.
  replace (n - String.length s)%nat with 0%nat by lia. reflexivity.
Qed.

Lemma length_padStart (n : nat) (c : ascii) (s : string) :
  String.length (padStart n c s) = Nat.max n (String.length s).
Proof. unfold padStart. rewrite length_append, length_string_repeat. lia. Qed.


(** X23.  Building the [bytes32] argument is idempotent: the value it gives is
    left as it is when it goes through again. *)
Theorem dataHashBytes32_idempotent (dataHash : string) :
  dataHashBytes32 (dataHashBytes32 dataHash) = dataHashBytes32 dataHash.
Proof.
  assert (H : forall body : string,
            (64 <= String.length body)%nat ->
            dataHashBytes32 ("0x" ++ body) = ("0x" ++ body)%string).
  { intros body Hlen.
    change ("0x" ++ body)%string with (String "0" ("x" ++ body)%string) at 1.
    unfold dataHashBytes32.
    change (String "0" ("x" ++ body)%string) with ("0x" ++ body)%string.
    rewrite prefix_app.
    change 2%nat with (String.length "0x"). rewrite string_drop_app.
    rewrite padStart_long by exact Hlen. reflexivity. }
  destruct dataHash as [| c s].
  - apply (H (string_repeat "0" 64)). rewrite length_string_repeat. lia.
  - unfold dataHashBytes32 at 2 3. apply H. rewrite length_padStart. lia.
Qed.

(** ** Removal of the padding *)

(** X24.  Round trip with the padding scheme: from a payload followed by [k]
    bytes of value [k], for a positive [k], the removal gives back the
    payload. *)
Theorem removePadding_padded (data : list N) (k : nat) :
  (1 <= k)%nat ->
  removePadding (data ++ replicate k (N.of_nat k)) = data.
Proof.
  intros Hk. unfold removePadding.
  destruct k as [| k]; [lia |].
  rewrite replicate_S_end, app_assoc, last_snoc.
  rewrite !length_app, length_replicate. simpl length.
  replace (Z.of_nat (length data + k + 1) - Z.of_N (N.of_nat (S k)))%Z
    with (Z.of_nat (length data)) by lia.
  destruct (Z.ltb_spec (Z.of_nat (length data)) 0) as [Hneg | _]; [lia |].
  rewrite Z.min_l by lia. rewrite Nat2Z.id.
  rewrite <- app_assoc. apply take_app_length.
Qed.

(** X25.  The removal only ever drops bytes at the end: what it returns is an
    initial segment of the array, and when the last byte [p] is at most the
    length of the array, [p] bytes are dropped (none for a last byte 0,
    whatever the bytes before it are). *)
Theorem removePadding_initial_segment (decryptedArray : list N) :
  (exists dropped, decryptedArray = removePadding decryptedArray ++ dropped) /\
  (forall p, last decryptedArray = Some p ->
     (N.to_nat p <= length decryptedArray)%nat ->
     length (removePadding decryptedArray)
       = (length decryptedArray - N.to_nat p)%nat).
Proof.
  unfold removePadding. split.
  - destruct (last decryptedArray) as [p |].
    + eexists. symmetry. apply take_drop.
    + exists decryptedArray. reflexivity.
  - intros p -> Hp.
    destruct (Z.ltb_spec (Z.of_nat (length decryptedArray) - Z.of_N p) 0)
      as [Hneg | Hpos]; [lia |].
    rewrite length_take. lia.
Qed.

(** * Further properties of the history reconstructor *)

Lemma for_each_Some {A B} (f : A -> option B) (l : list A) (ys : list B) :
  for_each f l = Some ys ->
  length ys = length l /\
  (forall y, In y ys <-> exists x, In x l /\ f x = Some y).
Proof.
  revert ys. induction l as [| x l IH]; simpl; intros ys H.
  - injection H as <-. split; [reflexivity |]. intros y. split; [intros [] |].
    intros (x & [] & _).
  - destruct (f x) as [y0 |] eqn:E; [| discriminate].
    destruct (for_each f l) as [ys' |]; [| discriminate].
    injection H as <-. destruct (IH ys' eq_refl) as [Hlen Hin].
    split; [simpl; lia |]. intros y. simpl. rewrite Hin. split.
    + intros [<- | (x' & Hx' & Hf)]; eauto.
    + intros (x' & [<- | Hx'] & Hf); [left; congruence | eauto].
Qed.

Lemma for_each_None {A B} (f : A -> option B) (l : list A) :
  for_each f l = None <-> exists x, In x l /\ f x = None.
Proof.
  induction l as [| x l IH]; simpl.
  - split; [discriminate | intros (x & [] & _)].
  - destruct (f x) as [y |] eqn:E; [| split; [eauto | reflexivity]].
    destruct (for_each f l) as [ys |].
    + split; [discriminate |]. intros (x' & [<- | Hx'] & Hf); [congruence |].
      enough (Hsome : Some ys = @None (list B)) by discriminate Hsome.
      apply IH. eauto.
    + split; [| reflexivity]. intros _.
      destruct IH as [IH _]. destruct (IH eq_refl) as (x' & Hx' & Hf). eauto.
Qed.

Lemma queries_cover (id : uint256) (log : list Event) (e : Event) :
  In e (queryFilter Created id log ++ queryFilter Sold id log ++
        queryFilter Relisted id log ++ queryFilter Canceled id log)
  <-> In e log /\ event_itemId e = id.
Proof.
  unfold queryFilter. rewrite !in_app_iff, !List.filter_In, !andb_true_iff, !N.eqb_eq.
  split; [tauto |]. intros [Hin Hid]. destruct e; simpl; tauto.
Qed.

Lemma queries_length (id : uint256) (log : list Event) :
  length (queryFilter Created id log ++ queryFilter Sold id log ++
          queryFilter Relisted id log ++ queryFilter Canceled id log)
  = length (List.filter (fun e => event_itemId e =? id) log).
Proof.
  rewrite !length_app. unfold queryFilter.
  induction log as [| e log IH]; simpl; [reflexivity |].
  destruct (event_itemId e =? id); rewrite ?andb_false_r, ?andb_true_r;
    [| exact IH].
  destruct e; simpl; lia.
Qed.

Lemma for_each_app {A B} (f : A -> option B) (l1 l2 : list A) (ys : list B) :
  for_each f (l1 ++ l2) = Some ys ->
  exists y1 y2, for_each f l1 = Some y1 /\ for_each f l2 = Some y2 /\ ys = y1 ++ y2.
Proof.
  revert ys. induction l1 as [| x l1 IH]; simpl; intros ys H.
  - exists [], ys. auto.
  - destruct (f x) as [y |]; [| discriminate].
    destruct (for_each f (l1 ++ l2)) as [ys' |]; [| discriminate].
    injection H as <-. destruct (IH ys' eq_refl) as (y1 & y2 & -> & -> & ->).
    exists (y :: y1), y2. auto.
Qed.

(** Elements with the least key that stand at the front stay there. *)
Lemma array_sort_least_first {A} (key : A -> Z) (front back : list A) :
  (forall x, (0 <= key x)%Z) ->
  (forall x, In x front -> key x = 0%Z) ->
  array_sort (fun a b => (key a - key b)%Z) (front ++ back)
    = front ++ array_sort (fun a b => (key a - key b)%Z) back.
Proof.
  intros Hpos Hzero. induction front as [| x front IH]; [reflexivity |].
  simpl. rewrite IH by (intros; apply Hzero; simpl; auto).
  destruct (front ++ array_sort _ back) as [| y l]; [reflexivity |]. simpl.
  rewrite (Hzero x) by (simpl; auto).
  destruct (Z.leb_spec (0 - key y) 0) as [_ | Hgt]; [reflexivity |].
  specialize (Hpos y). lia.
Qed.

Section MoreHistory.

Variable toString : N -> string.
Variable formatEther : N -> string.

Local Abbreviation entry := (entry toString formatEther).
Local Abbreviation fetchItemHistories := (fetchItemHistories toString formatEther).

Lemma entry_None (e : Event) :
  entry e = None <-> exists t, event_timestamp e = Some t /\ 2 ^ 53 - 1 < t.
Proof.
  destruct e as [| ? ? ? ? ? ? ts | ? ? ? ? ? ts | ? ? ? ? ts];
    simpl; unfold toNumber.
  - split; [discriminate | intros (t & Ht & _); discriminate].
  - destruct (N.leb_spec ts (2 ^ 53 - 1)).
    + split; [discriminate |]. intros (t & [= <-] & Ht). lia.
    + split; [eauto | reflexivity].
  - destruct (N.leb_spec ts (2 ^ 53 - 1)).
    + split; [discriminate |]. intros (t & [= <-] & Ht). lia.
    + split; [eauto | reflexivity].
  - destruct (N.leb_spec ts (2 ^ 53 - 1)).
    + split; [discriminate |]. intros (t & [= <-] & Ht). lia.
    + split; [eauto | reflexivity].
Qed.

(** X26.  The reconstructor throws exactly when some event of the item carries
    a timestamp above the largest safe integer. *)
Theorem fetchItemHistories_throws (log : list Event) (id : uint256) :
  fetchItemHistories log id = None <->
  exists e t, In e log /\ event_itemId e = id /\
    event_timestamp e = Some t /\ 2 ^ 53 - 1 < t.
Proof.
  unfold fetchItemHistories.
  destruct (for_each entry _) as [es |] eqn:E.
  - split; [discriminate |]. intros (e & t & Hin & Hid & Ht & Hbig). exfalso.
    assert (Hnone : for_each entry
              (queryFilter Created id log ++ queryFilter Sold id log ++
               queryFilter Relisted id log ++ queryFilter Canceled id log) = None).
    { apply for_each_None. exists e. split; [apply queries_cover; auto |].
      apply entry_None. eauto. }
    congruence.
  - split; [| reflexivity]. intros _.
    apply for_each_None in E as (e & Hin & Hf).
    apply queries_cover in Hin as [Hin Hid].
    apply entry_None in Hf as (t & Ht & Hbig). eauto 10.
Qed.

(** X27.  When the timestamps of the events of an item are safe integers, the
    reconstructor returns a history that has exactly one entry for each event
    of the item in the log, whatever its kind and place, and that is in
    ascending order of timestamp (a missing timestamp counting as 0). *)
Theorem fetchItemHistories_complete (log : list Event) (id : uint256) :
  (forall e t, In e log -> event_itemId e = id ->
     event_timestamp e = Some t -> t <= 2 ^ 53 - 1) ->
  exists events,
    fetchItemHistories log id = Some events /\
    length events = length (List.filter (fun e => event_itemId e =? id) log) /\
    (forall h, In h events <->
       exists e, In e log /\ event_itemId e = id /\ entry e = Some h) /\
    StronglySorted
      (fun a b => (null_to_number (HistoryEntry.timestamp a)
                   <= null_to_number (HistoryEntry.timestamp b))%Z) events.
Proof.
  intros Hsafe. unfold fetchItemHistories.
  destruct (for_each entry _) as [es |] eqn:E.
  - destruct (for_each_Some _ _ _ E) as [Hlen Hin].
    eexists. split; [reflexivity |]. split; [| split].
    + rewrite (Permutation_length (array_sort_perm _ es)), Hlen.
      apply queries_length.
    + intros h. rewrite (Permutation_in' (eq_refl h) (array_sort_perm _ es)).
      rewrite Hin. split.
      * intros (e & He & Hf). apply queries_cover in He as [He Hid]. eauto.
      * intros (e & He & Hid & Hf). exists e. split; [| exact Hf].
        apply queries_cover. auto.
    + apply (array_sort_ascending
               (fun a => null_to_number (HistoryEntry.timestamp a))).
  - exfalso. apply for_each_None in E as (e & Hin & Hf).
    apply queries_cover in Hin as [Hin Hid].
    apply entry_None in Hf as (t & Ht & Hbig).
    specialize (Hsafe e t Hin Hid Ht). lia.
Qed.

(** X28.  A listing always comes first: in the history the reconstructor
    returns, the LISTED entries stand at the front, in the order of the log,
    before every entry of another type, whatever the timestamps are. *)
Theorem fetchItemHistories_listed_first (log : list Event) (id : uint256)
    (events : list HistoryEntry.t) :
  fetchItemHistories log id = Some events ->
  exists listed rest,
    for_each entry (queryFilter Created id log) = Some listed /\
    events = listed ++ rest /\
    Forall (fun h => HistoryEntry.type h = "LISTED"%string) listed /\
    Forall (fun h => HistoryEntry.type h <> "LISTED"%string) rest.
Proof.
  unfold fetchItemHistories. intros H.
  destruct (for_each entry _) as [es |] eqn:E; [| discriminate].
  injection H as <-.
  apply for_each_app in E as (listed & others & El & Eo & ->).
  destruct (for_each_Some _ _ _ El) as [_ Hl].
  destruct (for_each_Some _ _ _ Eo) as [_ Ho].
  assert (Hlisted : forall h, In h listed ->
            HistoryEntry.type h = "LISTED"%string /\ HistoryEntry.timestamp h = None).
  { intros h Hh. apply Hl in Hh as (e & He & Hf).
    apply List.filter_In in He as [_ Hk]. apply andb_true_iff in Hk as [Hk _].
    destruct e; try discriminate Hk. injection Hf as <-. auto. }
  exists listed, (array_sort by_timestamp others).
  split; [exact El |]. split; [| split].
  - apply (array_sort_least_first
             (fun a => null_to_number (HistoryEntry.timestamp a))).
    + intros x. destruct (HistoryEntry.timestamp x); simpl; lia.
    + intros x Hx. destruct (Hlisted x Hx) as [_ ->]. reflexivity.
  - apply List.Forall_forall. intros h Hh. apply (Hlisted h Hh).
  - apply List.Forall_forall. intros h Hh.
    apply (Permutation_in _ (array_sort_perm _ others)) in Hh.
    apply Ho in Hh as (e & He & Hf).
    assert (Hk : event_kind e <> Created).
    { rewrite !in_app_iff in He. unfold queryFilter in He.
      rewrite !List.filter_In, !andb_true_iff in He.
      destruct e; simpl in He; [| discriminate ..].
      destruct He as [[_ [? _]] | [[_ [? _]] | [_ [? _]]]]; discriminate. }
    destruct e; simpl in Hk; try congruence; simpl in Hf;
      match type of Hf with
      | context [toNumber ?x] => destruct (toNumber x)
      end; try discriminate;
      injection Hf as <-; discriminate.
Qed.

End MoreHistory.

(** * Properties of the upload endpoint *)

Section UploadProperties.

Variable F : Type.
Variable upload : F -> string + string.
Variable PINATA_GATEWAY_URL : string.

Local Abbreviation handler := (handler upload PINATA_GATEWAY_URL).

(** X29.  The endpoint answers 200 only to a POST whose form was parsed and
    held a file that was uploaded; the body then carries the content
    identifier and the gateway address built from it.  The file uploaded is
    the one under the key "file" (the first one if that is an array) when
    there is one, and the first value of the form otherwise. *)
Theorem handler_success (method : string) (parse : Parse F) (body : Body) :
  handler method parse = (200, body) ->
  method = "POST"%string /\
  exists files f cid,
    parse = Parsed files /\ uploadedFile files = Some f /\ upload f = inl cid /\
    body = UploadBody cid ("https://" ++ PINATA_GATEWAY_URL ++ "/ipfs/" ++ cid)%string /\
    (forall v g, files_file files = Some v -> first_file v = Some g -> f = g) /\
    (forall k v rest, files = (k, v) :: rest ->
       (forall w, files_file files = Some w -> first_file w = None) ->
       first_file v = Some f).
Proof.
  unfold handler. destruct (String.eqb_spec method "POST") as [-> | Hne]; simpl;
    [| discriminate].
  destruct parse as [msg | files]; [discriminate |].
  destruct (uploadedFile files) as [f |] eqn:Ef; [| discriminate].
  destruct (upload f) as [cid | msg] eqn:Eu; [| discriminate].
  intros [= <-]. split; [reflexivity |].
  exists files, f, cid. repeat split; try assumption.
  - intros v g Hv Hg. unfold uploadedFile in Ef. rewrite Hv, Hg in Ef. congruence.
  - intros k v rest -> Hnone. unfold uploadedFile in Ef.
    destruct (files_file ((k, v) :: rest)) as [w |] eqn:Ew.
    + rewrite (Hnone w eq_refl) in Ef. exact Ef.
    + exact Ef.
Qed.

(** X30.  The other answers of the endpoint: 405 to any method but POST,
    whatever the request holds; to a POST, 500 with the message when the form
    cannot be parsed or the upload throws, and 400 exactly when the form
    holds no file under the key "file" (no such key, or an empty array) and
    is empty or has a first value that is an empty array: files under later
    keys are not looked at. *)
Theorem handler_failures (method : string) (parse : Parse F) :
  (method <> "POST"%string ->
     handler method parse = (405, ErrorBody "Method not allowed")) /\
  (forall message,
     handler "POST" (ParseError message) = (500, ErrorBody message)) /\
  (forall files,
     handler "POST" (Parsed files) = (400, ErrorBody "No file uploaded") <->
     (files_file files = None \/ files_file files = Some (FileArray [])) /\
     (files = [] \/ exists k rest, files = (k, FileArray []) :: rest)) /\
  (forall files f message,
     uploadedFile files = Some f -> upload f = inr message ->
     handler "POST" (Parsed files) = (500, ErrorBody message)).
Proof.
  split; [| split; [| split]].
  - intros Hne. unfold handler.
    destruct (String.eqb_spec method "POST"); [contradiction | reflexivity].
  - reflexivity.
  - intros files.
    assert (Hnone : uploadedFile files = None <->
              (files_file files = None \/ files_file files = Some (FileArray [])) /\
              (files = [] \/ exists k rest, files = (k, FileArray []) :: rest)).
    { unfold uploadedFile.
      destruct (files_file files) as [[f | [| f l]] |]; simpl.
      - split; [discriminate |]. intros [[H | H] _]; discriminate.
      - destruct files as [| [k [g | [| g l]]] rest]; simpl.
        + split; auto.
        + split; [discriminate |]. intros [_ [H | (k' & r & H)]]; discriminate.
        + split; eauto 10.
        + split; [discriminate |]. intros [_ [H | (k' & r & H)]]; discriminate.
      - split; [discriminate |]. intros [[H | H] _]; discriminate.
      - destruct files as [| [k [g | [| g l]]] rest]; simpl.
        + split; auto.
        + split; [discriminate |]. intros [_ [H | (k' & r & H)]]; discriminate.
        + split; eauto 10.
        + split; [discriminate |]. intros [_ [H | (k' & r & H)]]; discriminate. }
    rewrite <- Hnone. unfold handler. simpl.
    destruct (uploadedFile files) as [f |]; [| split; reflexivity].
    split; [| discriminate]. destruct (upload f); discriminate.
  - intros files f message Hf Hu. unfold handler. simpl. rewrite Hf, Hu. reflexivity.
Qed.

End UploadProperties.

(** * The further properties on the concrete worlds *)

Section MoreConcrete.

Import Scenario.

Local Abbreviation reachable := (reachable _ ERC721.transferFrom this accepts).
Local Abbreviation commit := (commit _ ERC721.transferFrom this accepts).
Local Abbreviation run := (run _ ERC721.transferFrom this accepts).
Local Abbreviation createMarketItem := (createMarketItem _ ERC721.transferFrom this).
Local Abbreviation createMarketSale := (createMarketSale _ ERC721.transferFrom this accepts).
Local Abbreviation relistMarketItem := (relistMarketItem _ ERC721.transferFrom this).
Local Abbreviation cancelListing := (cancelListing _ ERC721.transferFrom this).

(** Item 1 created by account 2, then canceled by account 2. *)
Lemma reachable_canceled : reachable (step (mkMsg 2 1001) (CancelListing 1) w1).
Proof. unfold step. apply reachable_commit, reachable_w1. Defined.

Lemma item_data_immutable_witness :
  getDataInfo _ 1 (commit (mkMsg 3 1001) (CreateMarketSale 10 50 1) w1)
    = getDataInfo _ 1 w1 /\
  MarketItem.itemId (item (commit (mkMsg 3 1001) (CreateMarketSale 10 50 1) w1) 1)
    = MarketItem.itemId (item w1 1) /\
  MarketItem.nftContract (item (commit (mkMsg 3 1001) (CreateMarketSale 10 50 1) w1) 1)
    = MarketItem.nftContract (item w1 1) /\
  MarketItem.tokenId (item (commit (mkMsg 3 1001) (CreateMarketSale 10 50 1) w1) 1)
    = MarketItem.tokenId (item w1 1).
Proof.
  apply (item_data_immutable _ ERC721.transferFrom this accepts
           (mkMsg 3 1001) (CreateMarketSale 10 50 1) w1 1).
  intros H. discriminate H.
Defined.

Lemma itemsSold_is_sales_minus_relists_witness :
  N.of_nat (length (ids_of Relisted (logs (run life w0))))
    <= N.of_nat (length (ids_of Sold (logs (run life w0)))) /\
  _itemsSold (market (run life w0)) =
    N.of_nat (length (ids_of Sold (logs (run life w0))))
    - N.of_nat (length (ids_of Relisted (logs (run life w0)))).
Proof.
  apply (itemsSold_is_sales_minus_relists _ ERC721.transferFrom this accepts life
           operator purses (<[(50, 7) := 2]> ∅)).
  vm_compute. reflexivity.
Defined.

Lemma relist_needs_an_open_sale_witness :
  exists e,
    relistMarketItem (mkMsg 2 1002) fee 1 20
      (step (mkMsg 2 1001) (CancelListing 1) w1) = Err e.
Proof.
  apply (relist_needs_an_open_sale _ ERC721.transferFrom this accepts
           (mkMsg 2 1002) fee 1 20 _ reachable_canceled).
  - vm_compute. reflexivity.
  - vm_compute. reflexivity.
Defined.

Lemma fetchMyNFTs_exact_witness :
  exists items,
    fetchMyNFTs _ (mkMsg 3 0) w2 = Ok items /\
    (forall it, it ∈ items <->
       exists i, stored w2 i /\ it = item w2 i /\ MarketItem.owner it = 3) /\
    StronglySorted N.lt (map MarketItem.itemId items).
Proof.
  exact (fetchMyNFTs_exact _ ERC721.transferFrom this accepts (mkMsg 3 0) w2
           reachable_w2).
Defined.

Lemma stored_item_in_one_view_witness :
  exists active mine,
    fetchMarketItems _ w2 = Ok active /\ fetchMyNFTs _ (mkMsg 3 0) w2 = Ok mine /\
    (MarketItem.owner (item w2 1) = address0 ->
       item w2 1 ∈ active /\ item w2 1 ∉ mine) /\
    (MarketItem.owner (item w2 1) = 3 ->
       item w2 1 ∈ mine /\ item w2 1 ∉ active) /\
    (forall it, it ∈ active -> it ∉ mine).
Proof.
  apply (stored_item_in_one_view _ ERC721.transferFrom this accepts (mkMsg 3 0) w2 1
           reachable_w2).
  - vm_compute. discriminate.
  - unfold stored. vm_compute. split; discriminate.
  - discriminate.
Defined.

Lemma purchase_gives_ownership_witness :
  (forall a, verifyOwnership _ 1 a w2 = true <-> a = 3) /\
  (exists mine, fetchMyNFTs _ (mkMsg 3 1001) w2 = Ok mine /\ item w2 1 ∈ mine) /\
  getDataInfo _ 1 w2 = getDataInfo _ 1 w1.
Proof.
  destruct (createMarketSale (mkMsg 3 1001) 10 50 1 w1) as [w' | e] eqn:E.
  - assert (Hw : w2 = w').
    { unfold w2, step. rewrite commit_eq. unfold execute. rewrite E. reflexivity. }
    rewrite Hw.
    apply (purchase_gives_ownership _ ERC721.transferFrom this accepts
             (mkMsg 3 1001) 10 50 1 w1 w' reachable_w1); [| exact E].
    unfold stored. vm_compute. split; discriminate.
  - vm_compute in E. discriminate E.
Defined.

Lemma purchase_price_mismatch_witness :
  createMarketSale (mkMsg 3 1001) 11 50 1 w1 = Err PriceMismatch /\
  commit (mkMsg 3 1001) (CreateMarketSale 11 50 1) w1 = w1.
Proof.
  apply (purchase_price_mismatch _ ERC721.transferFrom this accepts
           (mkMsg 3 1001) 11 50 1 w1).
  - vm_compute. discriminate.
  - vm_compute. discriminate.
Defined.

Lemma create_rejections_witness :
  (0 = 0 -> createMarketItem (mkMsg 2 1000) fee 50 7 0 0 "personal" "" w0
            = Err InvalidPrice) /\
  (0 < 0 -> fee <> listingPrice (market w0) ->
     createMarketItem (mkMsg 2 1000) fee 50 7 0 0 "personal" "" w0 = Err FeeMismatch) /\
  (0 = 0 \/ fee <> listingPrice (market w0) ->
     _itemIds (market (commit (mkMsg 2 1000)
                         (CreateMarketItem fee 50 7 0 0 "personal" "") w0))
       = _itemIds (market w0)).
Proof.
  apply (create_rejections _ ERC721.transferFrom this accepts
           (mkMsg 2 1000) fee 50 7 0 0 "personal"%string ""%string w0).
  vm_compute. discriminate.
Defined.

Lemma relist_and_cancel_authorization_witness :
  relistMarketItem (mkMsg 3 1001) fee 1 15 w1 = Err NotOwner /\
  cancelListing (mkMsg 3 1001) 1 w1 = Err NotSeller.
Proof.
  destruct (relist_and_cancel_authorization _ ERC721.transferFrom this
              (mkMsg 3 1001) fee 1 15 w1) as [Hr Hc].
  split.
  - apply Hr; vm_compute; discriminate.
  - apply Hc; [vm_compute; reflexivity | vm_compute; discriminate].
Defined.

Lemma create_lists_item_witness :
  exists w',
    createMarketItem (mkMsg 2 1000) fee 50 7 10 0 "personal" "" w0 = Ok w' /\
    item w' (_itemIds (market w0) + 1)
      = MarketItem.mk (_itemIds (market w0) + 1) 50 7 2 address0 10 0 "personal" "" /\
    getDataInfo _ (_itemIds (market w0) + 1) w' = (0, "personal"%string, ""%string) /\
    (exists active, fetchMarketItems _ w' = Ok active /\
       item w' (_itemIds (market w0) + 1) ∈ active) /\
    balance_of (balances w') this = balance_of (balances w0) this + fee /\
    balance_of (balances w') 2 = balance_of (balances w0) 2 - fee /\
    logs w' =
      logs w0 ++ [MarketItemCreated (_itemIds (market w0) + 1) 50 7 2 address0 10 0
                    "personal" ""].
Proof.
  eapply (create_lists_item _ ERC721.transferFrom this accepts
            (mkMsg 2 1000) fee 50 7 10 0 "personal"%string ""%string _ w0).
  - apply reachable_genesis.
  - vm_compute. reflexivity.
  - vm_compute. discriminate.
  - reflexivity.
  - reflexivity.
  - discriminate.
  - vm_compute. reflexivity.
  - discriminate.
Defined.

Lemma relist_lists_item_witness :
  exists w',
    relistMarketItem (mkMsg 3 1002) fee 1 15 w2 = Ok w' /\
    (exists active, fetchMarketItems _ w' = Ok active /\ item w' 1 ∈ active) /\
    MarketItem.seller (item w' 1) = 3 /\
    MarketItem.price (item w' 1) = 15 /\
    MarketItem.nftContract (item w' 1) = MarketItem.nftContract (item w2 1) /\
    MarketItem.tokenId (item w' 1) = MarketItem.tokenId (item w2 1) /\
    getDataInfo _ 1 w' = getDataInfo _ 1 w2.
Proof.
  eapply (relist_lists_item _ ERC721.transferFrom this accepts
            (mkMsg 3 1002) fee 1 15 _ w2 reachable_w2).
  - vm_compute. discriminate.
  - unfold stored. vm_compute. split; discriminate.
  - vm_compute. discriminate.
  - vm_compute. reflexivity.
  - reflexivity.
  - vm_compute. reflexivity.
  - vm_compute. reflexivity.
  - vm_compute. reflexivity.
Defined.

Lemma cancel_does_not_refund_witness :
  let w' := step (mkMsg 2 1001) (CancelListing 1) w1 in
  balance_of (balances w') 2 = balance_of (balances w0) 2 - listingPrice (market w0) /\
  balance_of (balances w') this
    = balance_of (balances w0) this + listingPrice (market w0) /\
  2 = 2 /\
  MarketItem.owner (item w' (_itemIds (market w1))) = 2.
Proof.
  intros w'.
  destruct (createMarketItem (mkMsg 2 1000) fee 50 7 10 0 "personal" "" w0)
    as [u1 | e] eqn:E1; [| vm_compute in E1; discriminate E1].
  assert (H1 : w1 = u1).
  { unfold w1, step. rewrite commit_eq. unfold execute. rewrite E1. reflexivity. }
  destruct (cancelListing (mkMsg 2 1001) (_itemIds (market u1)) u1)
    as [u2 | e] eqn:E2.
  - assert (H2 : w' = u2).
    { unfold w', step. rewrite commit_eq. unfold execute. rewrite H1.
      replace 1 with (_itemIds (market u1)) at 1
        by (rewrite <- H1; vm_compute; reflexivity).
      rewrite E2. reflexivity. }
    rewrite H2, H1.
    exact (cancel_does_not_refund _ ERC721.transferFrom this accepts
             (mkMsg 2 1000) (mkMsg 2 1001) fee 50 7 10 0 "personal"%string ""%string
             w0 u1 u2 E1 E2 ltac:(discriminate)).
  - rewrite <- H1 in E2. vm_compute in E2. discriminate E2.
Defined.

Lemma record_matches_created_event_witness :
  exists s p,
    MarketItemCreated 1 (MarketItem.nftContract (item w3 1))
      (MarketItem.tokenId (item w3 1)) s address0 p
      (MarketItem.dataHash (item w3 1)) (MarketItem.licenseType (item w3 1))
      (MarketItem.encryptedDataUrl (item w3 1)) ∈ logs w3.
Proof.
  apply (record_matches_created_event _ ERC721.transferFrom this accepts w3 1
           reachable_w3).
  replace (issued (logs w3)) with [1] by (vm_compute; reflexivity). constructor.
Defined.

End MoreConcrete.

(** * The properties of the helpers on examples *)

Lemma extractCidFromUrl_alnum_witness :
  "QmAbc123"%string <> EmptyString /\ take_alnum "QmAbc123" = "QmAbc123"%string.
Proof.
  apply (extractCidFromUrl_alnum (Some "https://gw.example/ipfs/QmAbc123?x=1"%string)).
  reflexivity.
Defined.

Lemma gateway_host_ok :
  (forall c, In c (list_ascii_of_string "green-delicate-badger-965.mypinata.cloud")
     -> c <> "/"%char) /\
  (forall pre,
     "green-delicate-badger-965.mypinata.cloud"%string <> (pre ++ "ipfs")%string).
Proof.
  split.
  - intros c Hc. simpl in Hc.
    repeat (destruct Hc as [<- | Hc]; [discriminate |]). contradiction.
  - intros pre H.
    assert (Hd : string_drop (String.length pre) (pre ++ "ipfs") = "ipfs"%string)
      by apply string_drop_app.
    assert (Hl : String.length pre = 36%nat).
    { apply (f_equal String.length) in H. rewrite length_append in H.
      simpl in H. lia. }
    rewrite <- H, Hl in Hd. discriminate Hd.
Defined.

Lemma extractCidFromUrl_of_gateway_url_witness :
  extractCidFromUrl
    (Some ("https://" ++ "green-delicate-badger-965.mypinata.cloud" ++ "/ipfs/"
           ++ "QmAbc123")%string)
  = Some "QmAbc123"%string.
Proof.
  apply (extractCidFromUrl_of_gateway_url
           "green-delicate-badger-965.mypinata.cloud" "QmAbc123").
  - apply gateway_host_ok.
  - apply gateway_host_ok.
  - discriminate.
  - reflexivity.
Defined.

Lemma removePadding_padded_witness :
  removePadding ([104; 105; 10] ++ replicate 5 (N.of_nat 5)) = [104; 105; 10].
Proof. apply (removePadding_padded [104; 105; 10] 5). lia. Defined.

Lemma fetchItemHistories_complete_witness :
  exists events,
    fetchItemHistories Scenario.render Scenario.render (logs Scenario.w4) 1
      = Some events /\
    length events
      = length (List.filter (fun e => event_itemId e =? 1) (logs Scenario.w4)) /\
    (forall h, In h events <->
       exists e, In e (logs Scenario.w4) /\ event_itemId e = 1 /\
         entry Scenario.render Scenario.render e = Some h) /\
    StronglySorted
      (fun a b => (null_to_number (HistoryEntry.timestamp a)
                   <= null_to_number (HistoryEntry.timestamp b))%Z) events.
Proof.
  apply (fetchItemHistories_complete Scenario.render Scenario.render
           (logs Scenario.w4) 1).
  replace (logs Scenario.w4)
    with [MarketItemCreated 1 50 7 2 0 10 0 "personal" "";
          MarketItemSold 1 50 7 2 3 10 1001;
          MarketItemRelisted 1 50 7 3 15 1002;
          MarketItemCanceled 1 50 7 3 1003]
    by (vm_compute; reflexivity).
  intros e t Hin _ Ht. simpl in Hin.
  destruct Hin as [<- | [<- | [<- | [<- | []]]]]; simpl in Ht;
    try discriminate Ht; injection Ht as <-; vm_compute; discriminate.
Defined.

Lemma fetchItemHistories_listed_first_witness :
  exists events listed rest,
    fetchItemHistories Scenario.render Scenario.render (logs Scenario.w4) 1
      = Some events /\
    for_each (entry Scenario.render Scenario.render)
      (queryFilter Created 1 (logs Scenario.w4)) = Some listed /\
    events = listed ++ rest /\
    Forall (fun h => HistoryEntry.type h = "LISTED"%string) listed /\
    Forall (fun h => HistoryEntry.type h <> "LISTED"%string) rest.
Proof.
  destruct (fetchItemHistories Scenario.render Scenario.render (logs Scenario.w4) 1)
    as [events |] eqn:E; [| vm_compute in E; discriminate E].
  destruct (fetchItemHistories_listed_first Scenario.render Scenario.render
              (logs Scenario.w4) 1 events E) as (listed & rest & H).
  exists events, listed, rest. split; [reflexivity | exact H].
Defined.

Lemma handler_success_witness :
  let upload := fun _ : nat => @inl string string "QmAbc123"%string in
  let files := [("file"%string, FileArray [7%nat; 8%nat]);
                ("other"%string, OneFile 9%nat)] in
  "POST"%string = "POST"%string /\
  exists files' f cid,
    Parsed files = Parsed files' /\ uploadedFile files' = Some f /\
    upload f = inl cid /\
    UploadBody "QmAbc123" "https://gw.example/ipfs/QmAbc123"
      = UploadBody cid ("https://" ++ "gw.example" ++ "/ipfs/" ++ cid)%string /\
    (forall v g, files_file files' = Some v -> first_file v = Some g -> f = g) /\
    (forall k v rest, files' = (k, v) :: rest ->
       (forall w, files_file files' = Some w -> first_file w = None) ->
       first_file v = Some f).
Proof.
  intros upload files.
  apply (handler_success nat upload "gw.example" "POST" (Parsed files)
           (UploadBody "QmAbc123" "https://gw.example/ipfs/QmAbc123")).
  reflexivity.
Defined.
